(* ===================================================================== *)
(* toqito: diamond norm, state exclusion and realignment.                 *)
(*                                                                        *)
(* A shallow embedding of                                                 *)
(*   toqito/channel_metrics/diamond_norm.py                               *)
(*   toqito/state_opt/state_exclusion.py                                  *)
(*   toqito/super_operators/realignment.py                                *)
(* together with a denotation of the convex programs these functions      *)
(* hand to cvxpy and picos.                                               *)
(*                                                                        *)
(* Conventions.                                                           *)
(*  - Array entries and Python floats are exact numbers of a closed       *)
(*    numeric field C (complex numbers); rounding is not modelled.        *)
(*  - A numpy array is its shape tuple and its indexing function.         *)
(*  - Python exceptions are values of [exn]. A function that can raise    *)
(*    returns a [result]; the two functions that build a problem run in   *)
(*    the monad [py], which also threads the list of objects created so   *)
(*    far in the modelling layer (variables, constraints, solver calls),  *)
(*    oldest first.                                                       *)
(*  - The conic solver is a parameter: nothing is assumed about it but    *)
(*    what a theorem states as a hypothesis.                              *)
(* ===================================================================== *)

From HB Require Import structures.
From mathcomp Require Import boot order algebra.
From mathcomp Require Import algC.
From Stdlib Require Import String PeanoNat Lia.

Set Implicit Arguments.
Unset Strict Implicit.
Unset Printing Implicit Defensive.

Import GRing.Theory Order.Theory Num.Theory Num.Def.
Local Open Scope ring_scope.
Local Open Scope sesquilinear_scope.

(* --------------------------------------------------------------------- *)
(* Python exceptions and results                                          *)
(* --------------------------------------------------------------------- *)

Inductive exn : Type :=
  | ValueError (msg : string)
  | IndexError
  | ZeroDivisionError
  | SolverFailure (msg : string)
  | NotModelled (what : string).

Inductive result (A : Type) : Type :=
  | Return (a : A)
  | Raise (e : exn).

Arguments Return {A} a.
Arguments Raise {A} e.

(* The two validation errors of the specification are ValueErrors of the
   source, told apart by their message. *)
Definition is_ValueError (e : exn) : bool :=
  if e is ValueError _ then true else false.

Definition DimensionMismatch_choi : exn :=
  ValueError "The Choi matrices provided should be of equal dimension.".

Definition NotSquareError : exn :=
  ValueError "The Choi matrix provided must be square.".

Definition DimensionMismatch_vectors : exn :=
  ValueError "Vectors for state exclusion must all have the same dimension.".

Definition InvalidDim : exn := ValueError "InvalidDim:".

(* Tuple unpacking [x, y = t] of a tuple whose length is not 2 (the
   message of Python also tells the length). *)
Definition unpack_error (len : nat) : exn :=
  if (len < 2)%N then ValueError "not enough values to unpack (expected 2)"
  else ValueError "too many values to unpack (expected 2)".

Section Monad.

Variable St : Type.

Definition py (A : Type) : Type := St -> result A * St.

Definition ret {A} (a : A) : py A := fun s => (Return a, s).

Definition raise {A} (e : exn) : py A := fun s => (Raise e, s).

Definition bind {A B} (m : py A) (k : A -> py B) : py B :=
  fun s => match m s with
           | (Return a, s') => k a s'
           | (Raise e, s') => (Raise e, s')
           end.

Definition lift {A} (r : result A) : py A := fun s => (r, s).

Definition emit (f : St -> St) : py unit := fun s => (Return tt, f s).

(* [for x in xs: body x], collecting the values (a list comprehension). *)
Fixpoint comprehension {A B} (body : A -> py B) (xs : seq A) : py (seq B) :=
  match xs with
  | [::] => ret [::]
  | x :: xs' =>
      bind (body x) (fun y =>
      bind (comprehension body xs') (fun ys => ret (y :: ys)))
  end.

End Monad.

Arguments ret {St A} a.
Arguments raise {St A} e.
Arguments lift {St A} r.

Declare Scope py_scope.
Delimit Scope py_scope with py.
Notation "x <- m ;; k" := (bind m (fun x => k))
  (at level 100, m at next level, right associativity) : py_scope.
Notation "m ;;; k" := (bind m (fun _ => k))
  (at level 100, right associativity) : py_scope.

(* Python sequence indexing [xs[i]] for a non-negative literal index. *)
Definition getitem {A} (xs : seq A) (i : nat) : result A :=
  match ohead (drop i xs) with
  | Some x => Return x
  | None => Raise IndexError
  end.

(* int(np.sqrt(n)) for a matrix side n: the integer square root (the
   float square root of an integer below 2^52 truncates to it). *)
Definition int_sqrt (n : nat) : nat := Nat.sqrt n.

(* --------------------------------------------------------------------- *)
(* numpy arrays                                                           *)
(* --------------------------------------------------------------------- *)

Section Arrays.

Variable C : numClosedFieldType.

(* [a.shape] and [a[i0, i1, ...]]. *)
Record ndarray : Type := Nd { shape : seq nat; item : seq nat -> C }.

Definition nd_map (f : C -> C) (a : ndarray) : ndarray :=
  Nd (shape a) (fun ix => f (item a ix)).

(* a.conj() *)
Definition nd_conj (a : ndarray) : ndarray := nd_map Num.conj a.

(* a.T reverses the axes. *)
Definition nd_T (a : ndarray) : ndarray :=
  Nd (rev (shape a)) (fun ix => item a (rev ix)).

(* c * a and a / c for a Python number c. *)
Definition nd_scale (c : C) (a : ndarray) : ndarray := nd_map ( *%R c) a.
Definition nd_div (a : ndarray) (c : C) : ndarray := nd_map (fun x => x / c) a.

(* a + b and a - b on arrays of one shape. numpy broadcasts arrays of
   unequal shapes or raises; no caller below reaches that case. *)
Definition nd_zip (f : C -> C -> C) (a b : ndarray) : result ndarray :=
  if shape a == shape b
  then Return (Nd (shape a) (fun ix => f (item a ix) (item b ix)))
  else Raise (NotModelled "broadcasting of unequal shapes").

Definition nd_add : ndarray -> ndarray -> result ndarray := nd_zip +%R.
Definition nd_sub : ndarray -> ndarray -> result ndarray :=
  nd_zip (fun x y => x - y).

(* a @ b on 2-D arrays. *)
Definition nd_matmul (a b : ndarray) : result ndarray :=
  match shape a, shape b with
  | [:: r; k], [:: k'; c] =>
      if k == k'
      then Return (Nd [:: r; c] (fun ix =>
             \sum_(l < k) item a [:: nth 0%N ix 0; val l]
                          * item b [:: val l; nth 0%N ix 1]))
      else Raise (ValueError "matmul: mismatch in its core dimension")
  | _, _ => Raise (NotModelled "matmul of arrays that are not 2-D")
  end.

(* The r x c matrix read off a 2-D array. *)
Definition mx_of (a : ndarray) (r c : nat) : 'M[C]_(r, c) :=
  \matrix_(i, j) item a [:: val i; val j].

(* --------------------------------------------------------------------- *)
(* The modelling layer shared by cvxpy and picos                          *)
(* --------------------------------------------------------------------- *)

Inductive name : Type :=
  | Name_rho | Name_w_var | Name_j_var | Name_Y
  | Name_M (i : nat).           (* f"M[{i}]" *)

Definition name_code (x : name) : nat :=
  match x with
  | Name_rho => 0 | Name_w_var => 1 | Name_j_var => 2 | Name_Y => 3
  | Name_M i => i.+4
  end.

Definition name_decode (k : nat) : name :=
  match k with
  | 0 => Name_rho | 1 => Name_w_var | 2 => Name_j_var | 3 => Name_Y
  | i.+4 => Name_M i
  end.

Lemma name_codeK : cancel name_code name_decode.
Proof. by case. Qed.

HB.instance Definition _ := Equality.copy name (can_type name_codeK).

(* cvxpy.Variable(shape, complex=True), cvxpy.Parameter(shape,
   complex=True) and picos.HermitianVariable(name, shape). *)
Inductive kind : Type := ComplexVar | HermitianVar | ComplexParam.

Record variable : Type :=
  Variable_ { v_name : name; v_shape : nat * nat; v_kind : kind }.

Inductive expr : Type :=
  | Var (v : variable)
  | Const (a : ndarray)
  | Eye (n : nat)                  (* np.eye(n), picos.I(n) *)
  | ConjT (e : expr)               (* e.H *)
  | Sub (e1 e2 : expr)             (* e1 - e2 *)
  | Kron (e1 e2 : expr)            (* cvxpy.kron(e1, e2) *)
  | MatMul (e1 e2 : expr)          (* e1 @ e2 *)
  | Trace (e : expr)
  | Real (e : expr)
  | Num_ (c : C)                   (* a Python number *)
  | Sum (es : seq expr)            (* picos.sum(es) *)
  | Inner (e1 e2 : expr).          (* picos: (e1 | e2) *)

Inductive constr : Type :=
  | CEq (e1 e2 : expr)             (* e1 == e2 *)
  | CPsd (e : expr)                (* e >> 0 *)
  | CNsd (e : expr)                (* e << 0 *)
  | CLoewnerLe (e1 e2 : expr).     (* picos: e1 << e2 *)

Inductive direction : Type := Maximize | Minimize.

Record problem : Type := Problem {
  p_constraints : seq constr;
  p_objective : option (direction * expr);
  p_values : seq (name * ndarray)   (* values given to parameters *)
}.

(* A matrix with its shape: the values of variables and of constraint
   duals. *)
Record smx : Type := Smx { sr : nat; sc : nat; sm : 'M[C]_(sr, sc) }.

(* What a solve leaves behind: the optimal value, the value of every
   variable and the dual value of every constraint (by position). *)
Record solution : Type := Solution {
  value : C;
  primals : name -> smx;
  duals : nat -> smx
}.

(* Objects created in the modelling layer, in order of creation. *)
Inductive event : Type :=
  | EvVariable (v : variable)
  | EvConstraint (c : constr)
  | EvProblem
  | EvSolve (p : problem).

Definition log : Type := seq event.

Definition record (ev : event) : py log unit := emit (fun s => rcons s ev).

Definition new_variable (x : name) (sh : nat * nat) (k : kind) :
  py log variable :=
  let v := Variable_ x sh k in
  bind (record (EvVariable v)) (fun _ => ret v).

Definition new_constraint (c : constr) : py log constr :=
  bind (record (EvConstraint c)) (fun _ => ret c).

End Arrays.

Arguments Var {C} v.
Arguments Eye {C} n.
Arguments EvVariable {C} v.
Arguments EvProblem {C}.

(* --------------------------------------------------------------------- *)
(* The three functions of the source                                      *)
(* --------------------------------------------------------------------- *)

Section Programs.

Variable C : numClosedFieldType.

(* problem.solve() of cvxpy followed by problem.value, and
   problem.solve(solver=...) of picos: the external conic solver. *)
Variable cvxpy_solve : problem C -> result C.
Variable picos_solve : string -> problem C -> result (solution C).

Local Open Scope py_scope.

Local Notation ndarray := (ndarray C).
Local Notation expr := (expr C).
Local Notation constr := (constr C).
Local Notation problem := (problem C).
Local Notation log := (log C).

(* ----- toqito/channel_metrics/diamond_norm.py ------------------------- *)

(* (delta_choi.conj().T + delta_choi) / 2 *)
Definition hermitize (delta_choi : ndarray) : result ndarray :=
  match nd_add (nd_T (nd_conj delta_choi)) delta_choi with
  | Return s => Return (nd_div s 2%:R)
  | Raise e => Raise e
  end.

(* The constraint list and the objective of diamond_norm, as the source
   writes them, for the variables rho, w_var and the parameter j_var. *)
Definition diamond_constraints (dim : nat) (rho w_var : variable) :
  seq constr :=
  [:: CEq (Var rho) (ConjT (Var rho));
      CPsd (Var rho);
      CEq (Trace (Var rho)) (Num_ 1);
      CEq (Var w_var) (ConjT (Var w_var));
      CPsd (Var w_var);
      CNsd (Sub (Var w_var) (Kron (Eye dim) (Var rho)))].

Definition diamond_objective (j_var w_var : variable) : direction * expr :=
  (Maximize, Real (Trace (MatMul (ConjT (Var j_var)) (Var w_var)))).

Definition diamond_problem (dim dim_squared : nat) (delta_choi : ndarray) :
  problem :=
  let rho := Variable_ Name_rho (dim, dim) ComplexVar in
  let w_var := Variable_ Name_w_var (dim_squared, dim_squared) ComplexVar in
  let j_var := Variable_ Name_j_var (dim_squared, dim_squared) ComplexParam in
  Problem (diamond_constraints dim rho w_var)
          (Some (diamond_objective j_var w_var))
          [:: (Name_j_var, delta_choi)].

Definition diamond_norm (choi_1 choi_2 : ndarray) : py log C :=
  if shape choi_1 != shape choi_2 then raise DimensionMismatch_choi else
  match shape choi_1 with
  | [:: choi_dim_x; choi_dim_y] =>
    if choi_dim_x != choi_dim_y then raise NotSquareError else
    dim_squared <- lift (getitem (shape choi_1) 0) ;;
    let dim := int_sqrt dim_squared in
    delta_choi <- lift (nd_sub choi_1 choi_2) ;;
    delta_choi <- lift (hermitize delta_choi) ;;
    rho <- new_variable Name_rho (dim, dim) ComplexVar ;;
    c1 <- new_constraint (CEq (Var rho) (ConjT (Var rho))) ;;
    c2 <- new_constraint (CPsd (Var rho)) ;;
    c3 <- new_constraint (CEq (Trace (Var rho)) (Num_ 1)) ;;
    w_var <- new_variable Name_w_var (dim_squared, dim_squared) ComplexVar ;;
    c4 <- new_constraint (CEq (Var w_var) (ConjT (Var w_var))) ;;
    c5 <- new_constraint (CPsd (Var w_var)) ;;
    c6 <- new_constraint
            (CNsd (Sub (Var w_var) (Kron (Eye dim) (Var rho)))) ;;
    j_var <- new_variable Name_j_var (dim_squared, dim_squared)
               ComplexParam ;;
    let objective := diamond_objective j_var w_var in
    record EvProblem ;;;
    let problem :=
      Problem [:: c1; c2; c3; c4; c5; c6] (Some objective)
              [:: (v_name j_var, delta_choi)] in
    record (EvSolve problem) ;;;
    problem_value <- lift (cvxpy_solve problem) ;;
    ret (problem_value * 2%:R)
  | s => raise (unpack_error (size s))
  end.

(* ----- toqito/state_opt/state_exclusion.py ---------------------------- *)

(* What state_exclusion returns next to the optimal value: the picos
   variables themselves (primal), or matrices read from the solution
   (dual). *)
Inductive operator : Type :=
  | OpVariable (v : variable)
  | OpValue (X : smx C).

(* vectors[0].shape[0] *)
Definition first_dim (vectors : seq ndarray) : result nat :=
  match getitem vectors 0 with
  | Return v0 => getitem (shape v0) 0
  | Raise e => Raise e
  end.

(* probs[i] * vectors[i] @ vectors[i].conj().T, with Python's
   left-to-right grouping of * and @. *)
Definition weighted_projector (p : C) (vector : ndarray) : result ndarray :=
  nd_matmul (nd_scale p vector) (nd_T (nd_conj vector)).

Definition picos_problem_solve (solver : string) (p : problem) :
  py log (solution C) :=
  record (EvSolve p) ;;; lift (picos_solve solver p).

Definition _min_error_primal (vectors : seq ndarray) (probs : seq C)
  (solver : string) : py log (C * seq operator) :=
  let n := size vectors in
  dim <- lift (first_dim vectors) ;;
  record EvProblem ;;;
  measurements <-
    comprehension (fun i => new_variable (Name_M i) (dim, dim) HermitianVar)
                  (iota 0 n) ;;
  psd <- comprehension (fun meas => new_constraint (CPsd (Var meas)))
                       measurements ;;
  total <- new_constraint (CEq (Sum [seq Var meas | meas <- measurements])
                               (Eye dim)) ;;
  terms <-
    comprehension (fun i =>
      p <- lift (getitem probs i) ;;
      vector <- lift (getitem vectors i) ;;
      a <- lift (weighted_projector p vector) ;;
      meas <- lift (getitem measurements i) ;;
      ret (Inner (Const a) (Var meas)))
    (iota 0 n) ;;
  let problem :=
    Problem (psd ++ [:: total]) (Some (Minimize, Sum terms)) [::] in
  solution <- picos_problem_solve solver problem ;;
  ret (value solution, [seq OpVariable meas | meas <- measurements]).

Definition _min_error_dual (vectors : seq ndarray) (probs : seq C)
  (solver : string) : py log (C * seq operator) :=
  let n := size vectors in
  dim <- lift (first_dim vectors) ;;
  record EvProblem ;;;
  y_var <- new_variable Name_Y (dim, dim) HermitianVar ;;
  below <-
    comprehension (fun iv : nat * ndarray =>
      let (i, vector) := iv in
      p <- lift (getitem probs i) ;;
      a <- lift (weighted_projector p vector) ;;
      new_constraint (CLoewnerLe (Var y_var) (Const a)))
    (zip (iota 0 n) vectors) ;;
  let problem := Problem below (Some (Maximize, Trace (Var y_var))) [::] in
  solution <- picos_problem_solve solver problem ;;
  measurements <-
    comprehension (fun k =>
      c <- lift (getitem (p_constraints problem) k) ;;
      ret (OpValue (duals solution k)))
    (iota 0 n) ;;
  ret (value solution, measurements).

(* [1 / n] * n: the division comes first. *)
Definition uniform (n : nat) : result (seq C) :=
  if n == 0%N then Raise ZeroDivisionError else Return (nseq n (1 / n%:R)).

Definition state_exclusion (vectors : seq ndarray) (probs : option (seq C))
  (solver : string) (primal_dual : string) : py log (C * seq operator) :=
  same <- comprehension (fun vector : ndarray =>
            v0 <- lift (getitem vectors 0) ;;
            ret (shape vector == shape v0))
          vectors ;;
  if ~~ all id same then raise DimensionMismatch_vectors else
  n <- lift (first_dim vectors) ;;
  probs <- (if probs is Some given then ret given else lift (uniform n)) ;;
  if String.eqb primal_dual "primal"
  then _min_error_primal vectors probs solver
  else _min_error_dual vectors probs solver.

(* The defaults of the signature: solver="cvxopt", primal_dual="dual". *)
Definition default_solver : string := "cvxopt".

End Programs.

Arguments diamond_constraints {C} dim rho w_var.
Arguments diamond_objective {C} j_var w_var.

(* ----- toqito/super_operators/realignment.py -------------------------- *)

(* The dim argument. A 2-D array of dimensions is the list of its rows;
   its entries are Python ints or floats, here exact rationals. Arrays
   of dimensions that are not 2-D are outside this model. *)
Definition dims : Type := seq (seq rat).

Inductive dim_arg : Type :=
  | DimNone
  | DimList (rows : dims)
  | DimInt (dim : int)
  | DimArray (rows : dims).

(* np.finfo(float).eps *)
Definition eps : rat := 2%:R ^- 52.

(* np.round on a float: to the nearest integer, ties to the even one. *)
Definition np_round (x : rat) : rat :=
  let f := Num.floor x in
  let r := x - f%:~R in
  if r < 2%:R^-1 then f%:~R
  else if 2%:R^-1 < r then (f + 1)%:~R
  else if odd `|f|%N then (f + 1)%:~R else f%:~R.

(* np.round(np.sqrt(n)) for a side n: the integer nearest to the square
   root, which is k or k + 1 for k the integer square root. *)
Definition round_sqrt (n : nat) : rat :=
  let k := Nat.sqrt n in
  if (k < n - k * k)%N then k.+1%:R else k%:R.

(* a.shape and a.T for a 2-D array given by its rows. *)
Definition dims_shape (a : dims) : nat * nat := (size a, size (head [::] a)).

Definition dims_T (a : dims) : dims :=
  [seq [seq nth 0 row j | row <- a] | j <- iota 0 (dims_shape a).2].

(* np.abs(q - np.round(q)) >= 2 * rows * eps, the test that guards
   raise ValueError("InvalidDim:"), for q = rows / dim. *)
Definition invalid_dim (rows : nat) (dim : int) : bool :=
  let q := rows%:R / dim%:~R in
  `|q - np_round q| >= 2%:R * rows%:R * eps.

Section Realignment.

Variable C : numClosedFieldType.

(* toqito.perms.swap.swap and
   toqito.super_operators.partial_transpose.partial_transpose are
   imported by the source from modules that are not at hand. *)
Variable swap : ndarray C -> seq nat -> dims -> bool -> result (ndarray C).
Variable partial_transpose : ndarray C -> nat -> dims -> result (ndarray C).

(* The isinstance(dim, int) branch: the quotient, the test, the rounding
   and the overwrite. *)
Definition dim_of_int (dim_mat : seq nat) (dim : int) : result dims :=
  match getitem dim_mat 0 with
  | Raise e => Raise e
  | Return rows =>
      if dim == 0 then Raise ZeroDivisionError else
      let dim0 : dims := [:: [:: dim%:~R]; [:: rows%:R / dim%:~R]] in
      if invalid_dim rows dim then Raise InvalidDim else
      let dim1 : dims := [:: [:: dim%:~R]; [:: np_round (rows%:R / dim%:~R)]] in
      Return [:: [:: 1]; [:: 4%:R]]
  end.

(* From "if min(dim.shape) == 1" to the end. *)
Definition realignment_with (input_mat : ndarray C) (dim : dims) :
  result (ndarray C) :=
  let dim :=
    if minn (dims_shape dim).1 (dims_shape dim).2 == 1%N
    then let dim := dims_T dim in
         let dim := flatten dim in
         [:: dim; dim]
    else dim in
  let at2 (i j : nat) : result rat :=
    match getitem dim i with
    | Return row => getitem row j
    | Raise e => Raise e
    end in
  match at2 0 1, at2 0 0, at2 1 0, at2 1 1 with
  | Return d01, Return d00, Return d10, Return d11 =>
      let dim_x := [:: [:: d01; d00]; [:: d10; d11]] in
      let dim_y := [:: [:: d10; d00]; [:: d01; d11]] in
      match swap input_mat [:: 1; 2]%N dim true with
      | Raise e => Raise e
      | Return x_tmp =>
          match partial_transpose x_tmp 1 dim_x with
          | Raise e => Raise e
          | Return y_tmp => swap y_tmp [:: 1; 2]%N dim_y true
          end
      end
  | _, _, _, _ => Raise IndexError
  end.

Definition realignment (input_mat : ndarray C) (dim : dim_arg) :
  result (ndarray C) :=
  let dim_mat := shape input_mat in
  let round_dim := [seq round_sqrt s | s <- dim_mat] in
  match dim with
  | DimNone => realignment_with input_mat (dims_T [:: round_dim])
  | DimList rows => realignment_with input_mat rows
  | DimArray rows => realignment_with input_mat rows
  | DimInt dim =>
      match dim_of_int dim_mat dim with
      | Raise e => Raise e
      | Return dim => realignment_with input_mat dim
      end
  end.

End Realignment.

(* --------------------------------------------------------------------- *)
(* What a problem of the modelling layer denotes                          *)
(* --------------------------------------------------------------------- *)

Section Semantics.

Variable C : numClosedFieldType.

Local Notation ndarray := (ndarray C).
Local Notation expr := (expr C).
Local Notation constr := (constr C).
Local Notation problem := (problem C).
Local Notation smx := (smx C).

(* A >> 0: the quadratic form of A has a non-negative real part, that is,
   the Hermitian part of A is positive semidefinite. *)
Definition psd n (A : 'M[C]_n) : Prop :=
  forall x : 'rV[C]_n, 0 <= 'Re ((x *m A *m x^t*) 0 0).

Definition hermitian n (A : 'M[C]_n) : Prop := A = A^t*.

(* np.kron / cvxpy.kron: entry (i*p + k, j*q + l) is a[i, j] * b[k, l]. *)
Lemma kron_fst_proof m p (i : 'I_(m * p)) : (i %/ p < m)%N.
Proof.
case: p i => [|p] i; first by case: i => i; rewrite muln0.
by rewrite ltn_divLR.
Qed.

Lemma kron_snd_proof m p (i : 'I_(m * p)) : (i %% p < p)%N.
Proof.
case: p i => [|p] i; first by case: i => i; rewrite muln0.
by rewrite ltn_pmod.
Qed.

Definition kron_fst m p (i : 'I_(m * p)) : 'I_m := Ordinal (kron_fst_proof i).
Definition kron_snd m p (i : 'I_(m * p)) : 'I_p := Ordinal (kron_snd_proof i).

Definition kron m n p q (A : 'M[C]_(m, n)) (B : 'M[C]_(p, q)) :
  'M[C]_(m * p, n * q) :=
  \matrix_(i, j) (A (kron_fst i) (kron_fst j) * B (kron_snd i) (kron_snd j)).

(* Matrices of any shape, and the partial operations on them. *)
Definition smx_conjT (X : smx) : smx := Smx ((sm X)^t*).

Definition smx_real (X : smx) : smx := Smx (map_mx (@Re C) (sm X)).

Definition smx_opp (X : smx) : smx := Smx (- sm X).

Definition smx_kron (X Y : smx) : smx := Smx (kron (sm X) (sm Y)).

Definition smx_add (X Y : smx) : option smx :=
  match sr Y =P sr X, sc Y =P sc X with
  | ReflectT e1, ReflectT e2 => Some (Smx (sm X + castmx (e1, e2) (sm Y)))
  | _, _ => None
  end.

Definition smx_sub (X Y : smx) : option smx := smx_add X (smx_opp Y).

Definition smx_mul (X Y : smx) : option smx :=
  match sr Y =P sc X with
  | ReflectT e => Some (Smx (sm X *m castmx (e, erefl (sc Y)) (sm Y)))
  | _ => None
  end.

Definition smx_trace (X : smx) : option smx :=
  match sc X =P sr X with
  | ReflectT e =>
      Some (Smx ((\tr (castmx (erefl (sr X), e) (sm X)))%:M : 'M[C]_1))
  | _ => None
  end.

(* picos: (A | B) = tr(B^H A) *)
Definition smx_inner (X Y : smx) : option smx :=
  obind smx_trace (smx_mul (smx_conjT Y) X).

Definition smx_sum (Xs : seq smx) : option smx :=
  match Xs with
  | [::] => Some (Smx (0 : 'M[C]_1))
  | X :: Xs' => foldl (fun acc Y => obind (smx_add^~ Y) acc) (Some X) Xs'
  end.

Definition smx_eq (X Y : smx) : Prop :=
  exists e1 : sr Y = sr X, exists e2 : sc Y = sc X,
    sm X = castmx (e1, e2) (sm Y).

Definition smx_psd (X : smx) : Prop :=
  exists e : sc X = sr X, psd (castmx (erefl (sr X), e) (sm X)).

Definition smx_hermitian (X : smx) : Prop :=
  exists e : sc X = sr X, hermitian (castmx (erefl (sr X), e) (sm X)).

Definition smx_scalar (X : smx) : option C :=
  match sr X =P 1%N, sc X =P 1%N with
  | ReflectT e1, ReflectT e2 => Some (castmx (e1, e2) (sm X) 0 0)
  | _, _ => None
  end.

Fixpoint assoc {A} (x : name) (xs : seq (name * A)) : option A :=
  match xs with
  | [::] => None
  | (y, a) :: xs' => if x == y then Some a else assoc x xs'
  end.

Definition smx_of_array (a : ndarray) : option smx :=
  match shape a with
  | [:: r; c] => Some (Smx (mx_of a r c))
  | _ => None
  end.

Definition all_some {A} (xs : seq (option A)) : option (seq A) :=
  foldr (fun x acc => obind (fun y => omap (cons y) acc) x) (Some [::]) xs.

Section Denote.

Variable vals : seq (name * ndarray).   (* the values of the parameters *)
Variable env : name -> smx.             (* the values of the variables *)

Fixpoint denote (e : expr) : option smx :=
  match e with
  | Var v =>
      if v_kind v is ComplexParam
      then match assoc (v_name v) vals with
           | Some a =>
               if shape a == [:: (v_shape v).1; (v_shape v).2]
               then smx_of_array a else None
           | None => None
           end
      else Some (env (v_name v))
  | Const a => smx_of_array a
  | Eye n => Some (Smx (1%:M : 'M[C]_n))
  | Num_ c => Some (Smx (c%:M : 'M[C]_1))
  | ConjT e1 => omap smx_conjT (denote e1)
  | Real e1 => omap smx_real (denote e1)
  | Trace e1 => obind smx_trace (denote e1)
  | Sub e1 e2 =>
      obind (fun X => obind (smx_sub X) (denote e2)) (denote e1)
  | MatMul e1 e2 =>
      obind (fun X => obind (smx_mul X) (denote e2)) (denote e1)
  | Kron e1 e2 =>
      obind (fun X => omap (smx_kron X) (denote e2)) (denote e1)
  | Inner e1 e2 =>
      obind (fun X => obind (smx_inner X) (denote e2)) (denote e1)
  | Sum es => obind smx_sum (all_some [seq denote e1 | e1 <- es])
  end.

Definition holds (c : constr) : Prop :=
  match c with
  | CEq e1 e2 =>
      match denote e1, denote e2 with
      | Some X, Some Y => smx_eq X Y
      | _, _ => False
      end
  | CPsd e => if denote e is Some X then smx_psd X else False
  | CNsd e => if denote e is Some X then smx_psd (smx_opp X) else False
  | CLoewnerLe e1 e2 =>
      match denote e1, denote e2 with
      | Some X, Some Y =>
          if smx_sub Y X is Some Z then smx_psd Z else False
      | _, _ => False
      end
  end.

End Denote.

(* The variables an expression mentions. *)
Fixpoint expr_vars (e : expr) : seq variable :=
  match e with
  | Var v => if v_kind v is ComplexParam then [::] else [:: v]
  | Const _ | Eye _ | Num_ _ => [::]
  | ConjT e1 | Real e1 | Trace e1 => expr_vars e1
  | Sub e1 e2 | MatMul e1 e2 | Kron e1 e2 | Inner e1 e2 =>
      expr_vars e1 ++ expr_vars e2
  | Sum es => flatten [seq expr_vars e1 | e1 <- es]
  end.

Definition constr_vars (c : constr) : seq variable :=
  match c with
  | CEq e1 e2 | CLoewnerLe e1 e2 => expr_vars e1 ++ expr_vars e2
  | CPsd e | CNsd e => expr_vars e
  end.

Definition problem_vars (p : problem) : seq variable :=
  flatten [seq constr_vars c | c <- p_constraints p]
  ++ (if p_objective p is Some (_, e) then expr_vars e else [::]).

Fixpoint every {A} (P : A -> Prop) (xs : seq A) : Prop :=
  if xs is x :: xs' then P x /\ every P xs' else True.

(* A value fits a variable: the declared shape, and Hermitian when the
   variable is a picos.HermitianVariable. *)
Definition fits (v : variable) (X : smx) : Prop :=
  [/\ sr X = (v_shape v).1, sc X = (v_shape v).2
    & v_kind v = HermitianVar -> smx_hermitian X].

Definition feasible (p : problem) (env : name -> smx) : Prop :=
  every (fun v => fits v (env (v_name v))) (problem_vars p)
  /\ every (holds (p_values p) env) (p_constraints p).

Definition objective_value (p : problem) (env : name -> smx) : option C :=
  if p_objective p is Some (_, e)
  then obind smx_scalar (denote (p_values p) env e) else None.

Definition better (d : direction) (a b : C) : bool :=
  match d with Maximize => b <= a | Minimize => a <= b end.

(* v is the optimal value of p: some feasible point attains it and no
   feasible point does better. *)
Definition optimal_value (p : problem) (v : C) : Prop :=
  match p_objective p with
  | Some (d, _) =>
      (exists2 env, feasible p env & objective_value p env = Some v)
      /\ (forall env w, feasible p env -> objective_value p env = Some w ->
            better d v w)
  | None => False
  end.

End Semantics.

(* --------------------------------------------------------------------- *)
(* Shapes of expressions                                                  *)
(* --------------------------------------------------------------------- *)

Section ExprShape.

Variable C : numClosedFieldType.



End ExprShape.

(* --------------------------------------------------------------------- *)
(* What the functions are compared with                                   *)
(* --------------------------------------------------------------------- *)

Section Statements.

Variable C : numClosedFieldType.

Local Notation ndarray := (ndarray C).
Local Notation smx := (smx C).

(* ----- diamond_norm ---------------------------------------------------- *)

(* The array diamond_norm computes for delta_choi from two arrays of one
   square shape. *)
Definition delta_of (choi_1 choi_2 : ndarray) : ndarray :=
  Nd (rev (shape choi_1))
     (fun ix => ((item choi_1 (rev ix) - item choi_2 (rev ix))^*
                 + (item choi_1 ix - item choi_2 ix)) / 2%:R).

(* What diamond_norm creates in the modelling layer, in order. *)
Definition diamond_events (dim side : nat) (delta : ndarray) :
  seq (event C) :=
  let rho := Variable_ Name_rho (dim, dim) ComplexVar in
  let w_var := Variable_ Name_w_var (side, side) ComplexVar in
  let j_var := Variable_ Name_j_var (side, side) ComplexParam in
  EvVariable rho
  :: [seq EvConstraint c | c <- take 3 (diamond_constraints dim rho w_var)]
  ++ EvVariable w_var
  :: [seq EvConstraint c | c <- drop 3 (diamond_constraints dim rho w_var)]
  ++ [:: EvVariable j_var; EvProblem;
         EvSolve (diamond_problem dim side delta)].

(* problem.value * 2 *)
Definition doubled (r : result C) : result C :=
  match r with Return v => Return (v * 2%:R) | Raise e => Raise e end.

(* The programme of the specification, in its words: Delta is replaced by
   (Delta + Delta^H)/2; rho is d x d, Hermitian, positive semidefinite, of
   trace 1; W is d^2 x d^2, Hermitian, positive semidefinite, below
   I_d (x) rho; the objective is Re Tr(Delta^H W), maximised. *)
Definition hermitized n (J1 J2 : 'M[C]_n) : 'M[C]_n :=
  2%:R^-1 *: ((J1 - J2) + (J1 - J2)^t*).

Definition watrous_feasible d (rho : 'M[C]_d) (W : 'M[C]_(d * d)) : Prop :=
  [/\ hermitian rho, psd rho & \tr rho = 1]
  /\ [/\ hermitian W, psd W & psd (kron 1%:M rho - W)].

Definition watrous_objective n (Delta W : 'M[C]_n) : C :=
  'Re (\tr (Delta^t* *m W)).

Definition watrous_optimum d (Delta : 'M[C]_(d * d)) (v : C) : Prop :=
  (exists rho : 'M[C]_d, exists2 W : 'M[C]_(d * d),
     watrous_feasible rho W & watrous_objective Delta W = v)
  /\ (forall (rho : 'M[C]_d) (W : 'M[C]_(d * d)),
        watrous_feasible rho W -> watrous_objective Delta W <= v).

Definition env_of_pair d (rho : 'M[C]_d) (W : 'M[C]_(d * d)) (x : name) :
  smx :=
  if x == Name_rho then Smx rho else Smx W.

(* The point rho = I/d, W = 0. *)
Definition centre (d : nat) (x : name) : smx :=
  if x == Name_rho then Smx ((d%:R^-1)%:M : 'M[C]_d)
  else Smx (0 : 'M[C]_(d * d)).

(* ----- state_exclusion ------------------------------------------------- *)

Definition nd0 : ndarray := Nd [::] (fun=> 0).

(* What weighted_projector computes on a column vector of length d. *)
Definition outer (p : C) (vector : ndarray) (d : nat) : ndarray :=
  Nd [:: d; d] (fun ix =>
    \sum_(l < 1) item (nd_scale p vector) [:: nth 0%N ix 0; val l]
                 * item (nd_T (nd_conj vector)) [:: val l; nth 0%N ix 1]).

Definition column (vector : ndarray) (d : nat) : 'cV[C]_d :=
  mx_of vector d 1.

(* Every vector is a column of length d: its shape is (d, 1). *)
Definition columns (d : nat) (vectors : seq ndarray) : bool :=
  all (fun v => shape v == [:: d; 1%N]) vectors.

(* The weighted projector p_i v_i v_i^H of the i-th state. *)
Definition weighted (vectors : seq ndarray) (probs : seq C) (d i : nat) :
  'M[C]_d :=
  nth 0 probs i
  *: (column (nth nd0 vectors i) d *m (column (nth nd0 vectors i) d)^t*).

(* One non-negative entry per state, summing to one. *)
Definition valid_probs (n : nat) (probs : seq C) : bool :=
  [&& size probs == n, all (fun p => 0 <= p) probs
    & \sum_(p <- probs) p == 1].

(* The dual path: the problem, the log and the returned pair. *)
Definition Yvar (d : nat) : variable := Variable_ Name_Y (d, d) HermitianVar.

Definition dual_constraints (vectors : seq ndarray) (probs : seq C)
  (d : nat) : seq (constr C) :=
  [seq CLoewnerLe (Var (Yvar d))
         (Const (outer (nth 0 probs i) (nth nd0 vectors i) d))
  | i <- iota 0 (size vectors)].

Definition dual_problem (vectors : seq ndarray) (probs : seq C) (d : nat) :
  problem C :=
  Problem (dual_constraints vectors probs d)
          (Some (Maximize, Trace (Var (Yvar d)))) [::].

Definition dual_events (vectors : seq ndarray) (probs : seq C) (d : nat) :
  seq (event C) :=
  EvProblem :: EvVariable (Yvar d)
  :: [seq EvConstraint c | c <- dual_constraints vectors probs d]
  ++ [:: EvSolve (dual_problem vectors probs d)].

Definition dual_result (vectors : seq ndarray) (r : result (solution C)) :
  result (C * seq (operator C)) :=
  match r with
  | Return sol =>
      Return (value sol,
              [seq OpValue (duals sol k) | k <- iota 0 (size vectors)])
  | Raise e => Raise e
  end.

(* The primal path. *)
Definition Mvar (d i : nat) : variable :=
  Variable_ (Name_M i) (d, d) HermitianVar.

Definition measurement_vars (d n : nat) : seq variable :=
  [seq Mvar d i | i <- iota 0 n].

Definition primal_constraints (n d : nat) : seq (constr C) :=
  [seq CPsd (Var m) | m <- measurement_vars d n]
  ++ [:: CEq (Sum [seq Var m | m <- measurement_vars d n]) (Eye d)].

Definition primal_terms (vectors : seq ndarray) (probs : seq C) (d : nat) :
  seq (expr C) :=
  [seq Inner (Const (outer (nth 0 probs i) (nth nd0 vectors i) d))
             (Var (Mvar d i))
  | i <- iota 0 (size vectors)].

Definition primal_problem (vectors : seq ndarray) (probs : seq C) (d : nat) :
  problem C :=
  Problem (primal_constraints (size vectors) d)
          (Some (Minimize, Sum (primal_terms vectors probs d))) [::].

Definition primal_events (vectors : seq ndarray) (probs : seq C) (d : nat) :
  seq (event C) :=
  EvProblem
  :: [seq EvVariable m | m <- measurement_vars d (size vectors)]
  ++ [seq EvConstraint c | c <- primal_constraints (size vectors) d]
  ++ [:: EvSolve (primal_problem vectors probs d)].

Definition primal_result (vectors : seq ndarray) (d : nat)
  (r : result (solution C)) : result (C * seq (operator C)) :=
  match r with
  | Return sol =>
      Return (value sol,
              [seq OpVariable C m | m <- measurement_vars d (size vectors)])
  | Raise e => Raise e
  end.

(* The matrix behind a value, when it has the asked shape. *)
Definition mx_at (X : smx) (r c : nat) : 'M[C]_(r, c) :=
  match sr X =P r, sc X =P c with
  | ReflectT e1, ReflectT e2 => castmx (e1, e2) (sm X)
  | _, _ => 0
  end.

Definition env_of_measurement d (M : nat -> 'M[C]_d) (x : name) : smx :=
  if x is Name_M i then Smx (M i) else Smx (0 : 'M[C]_d).

(* The two programmes of state exclusion over the weighted projectors
   A i = p_i v_i v_i^H, in the words of the specification. *)
Definition primal_feasible (d n : nat) (M : nat -> 'M[C]_d) : Prop :=
  (forall i, (i < n)%N -> hermitian (M i) /\ psd (M i))
  /\ \sum_(i < n) M i = 1%:M.

Definition primal_value (d n : nat) (A M : nat -> 'M[C]_d) : C :=
  \sum_(i < n) \tr ((M i)^t* *m A i).

Definition dual_feasible (d n : nat) (A : nat -> 'M[C]_d) (Y : 'M[C]_d) :
  Prop :=
  hermitian Y /\ forall i, (i < n)%N -> psd (A i - Y).

Definition dual_value (d : nat) (Y : 'M[C]_d) : C := \tr Y.

Definition exclusion_primal_optimum (n d : nat) (A : nat -> 'M[C]_d) (a : C) :
  Prop :=
  exists M : nat -> 'M[C]_d,
    [/\ primal_feasible n M, primal_value n A M = a
      & forall M', primal_feasible n M' -> a <= primal_value n A M'].

Definition exclusion_dual_optimum (n d : nat) (A : nat -> 'M[C]_d) (b : C) :
  Prop :=
  exists Y : 'M[C]_d,
    [/\ dual_feasible n A Y, dual_value Y = b
      & forall Y', dual_feasible n A Y' -> dual_value Y' <= b].

(* The solver is right on p up to tol. *)
Definition accurate (tol : C) (p : problem C) (sol : solution C) : Prop :=
  exists2 v, optimal_value p v & `|value sol - v| <= tol.

(* ----- a measurement perturbed along a direction ----------------------- *)

Definition sqnorm d (x : 'rV[C]_d) : C := (x *m x^t*) 0 0.

(* The orthogonal projector on the line of x. *)
Definition proj d (x : 'rV[C]_d) : 'M[C]_d := (sqnorm x)^-1 *: (x^t* *m x).

Definition nudge d (x : 'rV[C]_d) (e : C) : 'M[C]_d := 1%:M - e *: proj x.

Definition perturbed d (M : nat -> 'M[C]_d) (j : nat) (x : 'rV[C]_d) (e : C)
  (i : nat) : 'M[C]_d :=
  nudge x e *m M i *m (nudge x e)^t*
  + (if i == j then (e * (2%:R - e)) *: proj x else 0).

(* The candidate certificate: the Hermitian part of sum_i A_i M_i. *)
Definition certificate d (n : nat) (A M : nat -> 'M[C]_d) : 'M[C]_d :=
  2%:R^-1 *: (\sum_(i < n) A i *m M i + \sum_(i < n) M i *m A i).

Definition slope d (n : nat) (A M : nat -> 'M[C]_d) (j : nat)
  (x : 'rV[C]_d) : C :=
  \tr (proj x *m (A j - certificate n A M)).

Definition curvature d (n : nat) (A M : nat -> 'M[C]_d) (j : nat)
  (x : 'rV[C]_d) : C :=
  \sum_(i < n) \tr (proj x *m M i *m proj x *m A i) - \tr (proj x *m A j).

(* ----- realignment ----------------------------------------------------- *)

(* The run with the partition [[1], [4]]. *)
Definition realignment_1_4
  (swap : ndarray -> seq nat -> dims -> bool -> result ndarray)
  (partial_transpose : ndarray -> nat -> dims -> result ndarray)
  (input_mat : ndarray) : result ndarray :=
  match swap input_mat [:: 1; 2]%N [:: [:: 1; 4%:R]; [:: 1; 4%:R]] true with
  | Raise e => Raise e
  | Return x_tmp =>
      match partial_transpose x_tmp 1
              [:: [:: 4%:R; 1]; [:: 1; 4%:R]] with
      | Raise e => Raise e
      | Return y_tmp =>
          swap y_tmp [:: 1; 2]%N [:: [:: 1; 1]; [:: 4%:R; 4%:R]] true
      end
  end.

(* ----- more of state_exclusion ------------------------------------------ *)

(* A call of the solver, among the objects of the log. *)
Definition is_solve (ev : event C) : bool :=
  if ev is EvSolve _ then true else false.

(* The programme state_exclusion hands to picos in the given mode. *)
Definition mode_problem (primal_dual : string) (vectors : seq ndarray)
  (probs : seq C) (d : nat) : problem C :=
  if String.eqb primal_dual "primal" then primal_problem vectors probs d
  else dual_problem vectors probs d.

(* The inner product <u, v> of two columns of length d. *)
Definition inner (u v : ndarray) (d : nat) : C :=
  ((column u d)^t* *m column v d) 0 0.

(* The measurement that always answers j. *)
Definition always (d j i : nat) : 'M[C]_d :=
  if i == j then 1%:M else 0.

(* The measurement that answers i on the line of x and j across it. *)
Definition excluding d (i j : nat) (x : 'rV[C]_d) (k : nat) : 'M[C]_d :=
  (if k == i then proj x else 0) + (if k == j then 1%:M - proj x else 0).

(* ----- more of diamond_norm --------------------------------------------- *)

(* The index a * d + k of a Kronecker product of two d x d matrices. *)
Lemma kron_index_proof d (a k : 'I_d) : (a * d + k < d * d)%N.
Proof.
case: d a k => [|d] a k; first by case: a.
apply: (@leq_trans (a * d.+1 + d.+1)); first by rewrite ltn_add2l.
by rewrite addnC -mulSn leq_mul2r ltn_ord orbT.
Qed.

Definition kron_index d (a k : 'I_d) : 'I_(d * d) :=
  Ordinal (kron_index_proof a k).

(* The partial trace over the first factor. *)
Definition ptrace1 d (J : 'M[C]_(d * d)) : 'M[C]_d :=
  \matrix_(k, l) \sum_(a < d) J (kron_index a k) (kron_index a l).

(* ----- more of realignment ---------------------------------------------- *)

(* What "if min(dim.shape) == 1" leaves in dim. *)
Definition reshaped (dim : dims) : dims :=
  if minn (dims_shape dim).1 (dims_shape dim).2 == 1%N
  then [:: flatten (dims_T dim); flatten (dims_T dim)]
  else dim.

(* The three calls of realignment for a partition dim whose first two
   entries are a and b in both rows. *)
Definition realignment_calls
  (swap : ndarray -> seq nat -> dims -> bool -> result ndarray)
  (partial_transpose : ndarray -> nat -> dims -> result ndarray)
  (dim : dims) (a b : rat) (input_mat : ndarray) : result ndarray :=
  match swap input_mat [:: 1; 2]%N dim true with
  | Raise e => Raise e
  | Return x_tmp =>
      match partial_transpose x_tmp 1 [:: [:: b; a]; [:: a; b]] with
      | Raise e => Raise e
      | Return y_tmp => swap y_tmp [:: 1; 2]%N [:: [:: a; a]; [:: b; b]] true
      end
  end.

(* ----- inputs ---------------------------------------------------------- *)

(* An array of ones. *)
Definition ones (sh : seq nat) : ndarray := Nd sh (fun=> 1).

(* The Bell vectors (|00> + |11>)/sqrt 2 and (|00> - |11>)/sqrt 2 of
   toqito.states.bell, as arrays of shape (4, 1). *)
Definition bell (k : nat) : ndarray :=
  Nd [:: 4; 1]%N (fun ix =>
    let i := nth 0%N ix 0 in
    if i == 0%N then (sqrtC 2%:R)^-1
    else if i == 3%N then (if k == 0%N then 1 else -1) / sqrtC 2%:R
    else 0).

End Statements.

(* Inputs over the algebraic numbers. *)
Definition zero_solver : problem algC -> result algC := fun=> Return 0.

Definition unit_solution : solution algC :=
  Solution 1 (fun=> Smx (0 : 'M[algC]_1)) (fun=> Smx (0 : 'M[algC]_1)).

Definition unit_solver : string -> problem algC -> result (solution algC) :=
  fun _ _ => Return unit_solution.

Definition id_swap (a : ndarray algC) (_ : seq nat) (_ : dims) (_ : bool) :
  result (ndarray algC) := Return a.

Definition id_partial_transpose (a : ndarray algC) (_ : nat) (_ : dims) :
  result (ndarray algC) := Return a.

Definition scalar_state : seq (ndarray algC) := [:: ones algC [:: 1; 1]%N].

Definition zero_solution : solution algC :=
  Solution 0 (fun=> Smx (0 : 'M[algC]_1)) (fun=> Smx (0 : 'M[algC]_1)).

Definition null_solver : string -> problem algC -> result (solution algC) :=
  fun _ _ => Return zero_solution.

(* --------------------------------------------------------------------- *)
(* Runs of diamond_norm                                                  *)
(* --------------------------------------------------------------------- *)

Section Run.

Variable C : numClosedFieldType.
Variable cvxpy_solve : problem C -> result C.
Variable picos_solve : string -> problem C -> result (solution C).

Local Notation diamond_norm := (diamond_norm cvxpy_solve).
Local Notation state_exclusion := (state_exclusion picos_solve).

Lemma same_shape_run (vectors : seq (ndarray C)) v0 rest (l : log C) :
  vectors = v0 :: rest ->
  forall ws,
  comprehension (fun vector : ndarray C =>
      bind (lift (getitem vectors 0))
           (fun v0 => ret (shape vector == shape v0))) ws l
  = (Return [seq shape w == shape v0 | w <- ws], l).
Proof.
move=> ->; elim=> [|w ws IH] //=.
by rewrite /bind /= IH.
Qed.

Lemma diamond_norm_run (choi_1 choi_2 : ndarray C) (side : nat) (l : log C) :
  shape choi_1 = [:: side; side] -> shape choi_2 = [:: side; side] ->
  diamond_norm choi_1 choi_2 l
  = (doubled (cvxpy_solve
                (diamond_problem (int_sqrt side) side
                                 (delta_of choi_1 choi_2))),
     l ++ diamond_events (int_sqrt side) side (delta_of choi_1 choi_2)).
Proof.
move=> s1 s2.
rewrite /diamond_norm s1 s2 !eqxx /=.
rewrite /bind /= /nd_sub /nd_zip s1 s2 eqxx /=.
rewrite /hermitize /nd_add /nd_zip /= eqxx /=.
rewrite /delta_of /diamond_problem /diamond_events s1 /=.
rewrite -!cats1 -!catA /=.
by case: (cvxpy_solve _).
Qed.

End Run.

(* --------------------------------------------------------------------- *)
(* Matrices of any shape                                                 *)
(* --------------------------------------------------------------------- *)

Section SmxLemmas.

Variable C : numClosedFieldType.
Local Notation smx := (smx C).

Lemma smx_addE r c (A B : 'M[C]_(r, c)) :
  smx_add (Smx A) (Smx B) = Some (Smx (A + B)).
Proof.
rewrite /smx_add /=.
case: eqP => // e1; case: eqP => // e2.
by rewrite castmx_id.
Qed.

Lemma smx_subE r c (A B : 'M[C]_(r, c)) :
  smx_sub (Smx A) (Smx B) = Some (Smx (A - B)).
Proof. by rewrite /smx_sub /smx_opp /= smx_addE. Qed.

Lemma smx_mulE r k c (A : 'M[C]_(r, k)) (B : 'M[C]_(k, c)) :
  smx_mul (Smx A) (Smx B) = Some (Smx (A *m B)).
Proof.
rewrite /smx_mul /=.
case: eqP => // e.
by rewrite castmx_id.
Qed.

Lemma smx_traceE n (A : 'M[C]_n) :
  smx_trace (Smx A) = Some (Smx ((\tr A)%:M : 'M[C]_1)).
Proof.
rewrite /smx_trace /=.
case: eqP => // e.
by rewrite castmx_id.
Qed.

Lemma smx_eqE r c (A B : 'M[C]_(r, c)) : smx_eq (Smx A) (Smx B) <-> A = B.
Proof.
split=> [[e1 [e2]]|->] /=; first by rewrite castmx_id.
by exists (erefl r), (erefl c); rewrite castmx_id.
Qed.

Lemma smx_psdE n (A : 'M[C]_n) : smx_psd (Smx A) <-> psd A.
Proof.
split=> [[e]|pA] /=; first by rewrite castmx_id.
by exists (erefl n); rewrite castmx_id.
Qed.

Lemma smx_hermitianE n (A : 'M[C]_n) :
  smx_hermitian (Smx A) <-> hermitian A.
Proof.
split=> [[e]|pA] /=; first by rewrite castmx_id.
by exists (erefl n); rewrite castmx_id.
Qed.

Lemma smx_scalarE (A : 'M[C]_1) : smx_scalar (Smx A) = Some (A 0 0).
Proof.
rewrite /smx_scalar /=.
case: (@eqP _ 1%N 1%N) => // e1.
by rewrite castmx_id.
Qed.

(* A value that fits a variable is a matrix of the declared shape. *)
Lemma fits_shape (v : variable) (X : smx) :
  fits v X ->
  exists2 A : 'M[C]_((v_shape v).1, (v_shape v).2), X = Smx A
    & v_kind v = HermitianVar -> smx_hermitian (Smx A).
Proof.
case: X => r c A [/= er ec h].
by move: A h; rewrite er ec => A h; exists A.
Qed.

End SmxLemmas.

(* --------------------------------------------------------------------- *)
(* The programme of diamond_norm                                         *)
(* --------------------------------------------------------------------- *)

Section Watrous.

Variable C : numClosedFieldType.
Local Notation smx := (smx C).

Lemma mx_of_delta (choi_1 choi_2 : ndarray C) n :
  mx_of (delta_of choi_1 choi_2) n n
  = hermitized (mx_of choi_1 n n) (mx_of choi_2 n n).
Proof.
apply/matrixP => i j; rewrite !mxE /=.
by rewrite mulrC addrC.
Qed.

Lemma diamond_feasible d (delta : ndarray C) (env : name -> smx) :
  feasible (diamond_problem d (d * d) delta) env
  <-> exists rho : 'M[C]_d, exists W : 'M[C]_(d * d),
        [/\ env Name_rho = Smx rho, env Name_w_var = Smx W
          & watrous_feasible rho W].
Proof.
split.
  case=> /= [[fr [_ [_ [_ [fw _]]]]]].
  have [rho er _] := fits_shape fr.
  have [W ew _] := fits_shape fw.
  rewrite /= in rho er W ew *.
  rewrite er ew /= !smx_traceE /= smx_subE.
  case=> /smx_eqE h1 [/smx_psdE h2 [/smx_eqE h3 [/smx_eqE h4 [/smx_psdE h5 [h6 _]]]]].
  exists rho, W; split=> //; split; split=> //.
    by move/matrixP/(_ 0 0): h3; rewrite !mxE /= !mulr1n.
  by move/smx_psdE: h6; rewrite /= opprB.
case=> rho [W [er ew [[h1 h2 h3] [h4 h5 h6]]]].
split; rewrite /= er ew /=.
  by do !split.
rewrite !smx_traceE smx_subE /=; do !split.
- exact/smx_eqE.
- exact/smx_psdE.
- by apply/smx_eqE; rewrite h3.
- exact/smx_eqE.
- exact/smx_psdE.
- by apply/smx_psdE; rewrite /= opprB.
Qed.

End Watrous.

Section WatrousValue.

Variable C : numClosedFieldType.
Local Notation smx := (smx C).

Lemma diamond_objective_value d (delta : ndarray C) (env : name -> smx)
  (W : 'M[C]_(d * d)) :
  shape delta = [:: (d * d)%N; (d * d)%N] ->
  env Name_w_var = Smx W ->
  objective_value (diamond_problem d (d * d) delta) env
  = Some (watrous_objective (mx_of delta (d * d) (d * d)) W).
Proof.
move=> sd ew.
rewrite /objective_value /= sd eqxx /smx_of_array sd /= ew.
by rewrite smx_mulE /= smx_traceE /= smx_scalarE !mxE /= mulr1n.
Qed.

Lemma Re_real (z : C) : z \is Num.real -> 'Re z = z.
Proof. by move/Creal_ReP. Qed.

(* x (c I) x^H = c |x|^2 *)
Lemma form_scalar n (c : C) (x : 'rV[C]_n) :
  (x *m c%:M *m x^t*) 0 0 = c * \sum_k `|x 0 k| ^+ 2.
Proof.
rewrite mul_mx_scalar -scalemxAl !mxE; congr (_ * _).
by apply: eq_bigr => k _; rewrite !mxE normCK.
Qed.

Lemma psd_scalar n (c : C) : 0 <= c -> psd (c%:M : 'M[C]_n).
Proof.
move=> c0 x; rewrite form_scalar.
have h : 0 <= c * \sum_k `|x 0 k| ^+ 2.
  by rewrite mulr_ge0 // sumr_ge0 // => k _; rewrite exprn_ge0.
by rewrite Re_real // ger0_real.
Qed.

Lemma psd0 n : psd (0 : 'M[C]_n).
Proof. by move=> x; rewrite mulmx0 mul0mx mxE raddf0. Qed.

Lemma kron1_scalar d (c : C) :
  kron (1%:M : 'M[C]_d) (c%:M : 'M[C]_d) = c%:M.
Proof.
apply/matrixP => i j; rewrite !mxE.
rewrite -!(inj_eq val_inj) /=.
have -> : (i == j :> nat) = (i %/ d == j %/ d)%N && (i %% d == j %% d)%N.
  apply/eqP/andP => [->|[/eqP e1 /eqP e2]] //.
  by rewrite (divn_eq i d) (divn_eq j d) e1 e2.
by case: eqP => _; case: eqP => _; rewrite /= ?mulr1n ?mulr0n ?mul0r ?mul1r ?mulr0.
Qed.

End WatrousValue.

Section SelfDistance.

Variable C : numClosedFieldType.
Local Notation smx := (smx C).
Local Notation centre := (centre C).

Lemma hermitized_self n (J : 'M[C]_n) : hermitized J J = 0.
Proof. by rewrite /hermitized subrr trmx0 map_mx0 addr0 scaler0. Qed.

Lemma watrous_objective0 n (W : 'M[C]_n) : watrous_objective 0 W = 0.
Proof.
by rewrite /watrous_objective trmx0 map_mx0 mul0mx mxtrace0 raddf0.
Qed.

Lemma int_sqrt_square d : int_sqrt (d * d) = d.
Proof. exact: Nat.sqrt_square. Qed.


Lemma centre_feasible d : (0 < d)%N ->
  watrous_feasible ((d%:R^-1)%:M : 'M[C]_d) (0 : 'M[C]_(d * d)).
Proof.
move=> d0.
have i0 : 0 <= (d%:R^-1 : C) by rewrite invr_ge0 ler0n.
split; split.
- rewrite /hermitian tr_scalar_mx map_scalar_mx.
  by congr (_%:M); rewrite /= conj_Creal // ger0_real.
- exact: psd_scalar.
- by rewrite mxtrace_scalar -mulr_natl divff // pnatr_eq0 -lt0n.
- by rewrite /hermitian trmx0 map_mx0.
- exact: psd0.
- by rewrite subr0 kron1_scalar; apply: psd_scalar.
Qed.

Lemma diamond_self_value d (J : ndarray C) (env : name -> smx) :
  shape J = [:: (d * d)%N; (d * d)%N] ->
  feasible (diamond_problem d (d * d) (delta_of J J)) env ->
  objective_value (diamond_problem d (d * d) (delta_of J J)) env = Some 0.
Proof.
move=> sJ /diamond_feasible [rho [W [_ ew _]]].
rewrite (diamond_objective_value _ ew) ?mx_of_delta ?hermitized_self
        ?watrous_objective0 //.
by rewrite /delta_of sJ.
Qed.

Lemma diamond_self_optimal d (J : ndarray C) :
  (0 < d)%N -> shape J = [:: (d * d)%N; (d * d)%N] ->
  optimal_value (diamond_problem d (d * d) (delta_of J J)) 0.
Proof.
move=> d0 sJ; split.
  have f : feasible (diamond_problem d (d * d) (delta_of J J)) (centre d).
    apply/diamond_feasible.
    by exists (d%:R^-1)%:M, 0; split=> //; apply: centre_feasible.
  by exists (centre d) => //; apply: diamond_self_value.
move=> env w f; rewrite (diamond_self_value sJ f) => -[<-].
by rewrite /better.
Qed.

Lemma diamond_self_unique d (J : ndarray C) v :
  shape J = [:: (d * d)%N; (d * d)%N] ->
  optimal_value (diamond_problem d (d * d) (delta_of J J)) v -> v = 0.
Proof.
move=> sJ [[env f]]; rewrite (diamond_self_value sJ f).
by move=> [<-].
Qed.

End SelfDistance.

(* --------------------------------------------------------------------- *)
(* Hermitian forms                                                       *)
(* --------------------------------------------------------------------- *)

Section Forms.

Variable C : numClosedFieldType.

Local Notation form A x := ((x *m A *m x^t*) 0 0).

Lemma trmxC_mul m n p (A : 'M[C]_(m, n)) (B : 'M[C]_(n, p)) :
  (A *m B)^t* = B^t* *m A^t*.
Proof. by rewrite trmx_mul map_mxM. Qed.

Lemma trmxC_K m n (A : 'M[C]_(m, n)) : A^t*^t* = A.
Proof. exact: trmxCK. Qed.

Lemma entry_trmxC (A : 'M[C]_1) : (A^t*) 0 0 = (A 0 0)^*.
Proof. by rewrite !mxE. Qed.

Lemma mxtrace_trmxC n (A : 'M[C]_n) : \tr (A^t*) = (\tr A)^*.
Proof.
rewrite /mxtrace rmorph_sum /=.
by apply: eq_bigr => i _; rewrite !mxE.
Qed.

Lemma herm_form_real n (A : 'M[C]_n) (x : 'rV[C]_n) :
  hermitian A -> form A x \is Num.real.
Proof.
move=> hA; apply/CrealP.
by rewrite -entry_trmxC !trmxC_mul trmxC_K -hA mulmxA.
Qed.

Lemma psd_form_ge0 n (A : 'M[C]_n) (x : 'rV[C]_n) :
  hermitian A -> psd A -> 0 <= form A x.
Proof.
move=> hA pA.
by have := pA x; rewrite (Re_real (herm_form_real x hA)).
Qed.

Lemma form_ge0_psd n (A : 'M[C]_n) :
  (forall x : 'rV[C]_n, 0 <= form A x) -> psd A.
Proof. by move=> h x; rewrite Re_real ?ger0_real. Qed.

Lemma form_congr n (A N : 'M[C]_n) (x : 'rV[C]_n) :
  form (N *m A *m N^t*) x = form A (x *m N).
Proof. by rewrite trmxC_mul !mulmxA. Qed.

Lemma form_tr n (A : 'M[C]_n) (x : 'rV[C]_n) :
  form A x = \tr (x^t* *m x *m A).
Proof. by rewrite -[in RHS]mulmxA mxtrace_mulC trace_mx11. Qed.

Lemma formD n (A B : 'M[C]_n) (x : 'rV[C]_n) :
  form (A + B) x = form A x + form B x.
Proof. by rewrite mulmxDr mulmxDl mxE. Qed.

Lemma formZ n (c : C) (A : 'M[C]_n) (x : 'rV[C]_n) :
  form (c *: A) x = c * form A x.
Proof. by rewrite -scalemxAr -scalemxAl mxE. Qed.

Lemma formN n (A : 'M[C]_n) (x : 'rV[C]_n) : form (- A) x = - form A x.
Proof. by rewrite mulmxN mulNmx mxE. Qed.

Lemma hermitianD n (A B : 'M[C]_n) :
  hermitian A -> hermitian B -> hermitian (A + B).
Proof. by rewrite /hermitian => hA hB; rewrite linearD /= map_mxD -hA -hB. Qed.

Lemma hermitianN n (A : 'M[C]_n) : hermitian A -> hermitian (- A).
Proof. by rewrite /hermitian => hA; rewrite linearN /= map_mxN -hA. Qed.

Lemma hermitianZ n (c : C) (A : 'M[C]_n) :
  c \is Num.real -> hermitian A -> hermitian (c *: A).
Proof.
rewrite /hermitian => rc hA.
by rewrite linearZ /= map_mxZ /= -hA conj_Creal.
Qed.

Lemma hermitian_congr n (A N : 'M[C]_n) :
  hermitian A -> hermitian (N *m A *m N^t*).
Proof.
by rewrite /hermitian => hA; rewrite !trmxC_mul trmxC_K -hA mulmxA.
Qed.

Lemma hermitian1 n : hermitian (1%:M : 'M[C]_n).
Proof. by rewrite /hermitian trmx1 map_mx1. Qed.

Lemma hermitian_sum n (I : Type) (r : seq I) (F : I -> 'M[C]_n) :
  (forall i, hermitian (F i)) -> hermitian (\sum_(i <- r) F i).
Proof.
move=> hF; elim/big_rec: _ => [|i A _ hA]; last exact: hermitianD.
by rewrite /hermitian trmx0 map_mx0.
Qed.

Lemma psdD n (A B : 'M[C]_n) : psd A -> psd B -> psd (A + B).
Proof. by move=> pA pB x; rewrite formD raddfD /= addr_ge0. Qed.

Lemma psdZ n (c : C) (A : 'M[C]_n) : 0 <= c -> psd A -> psd (c *: A).
Proof.
move=> c0 pA x; rewrite formZ ReMl ?ger0_real //.
by rewrite mulr_ge0.
Qed.

Lemma psd_congr n (A N : 'M[C]_n) : psd A -> psd (N *m A *m N^t*).
Proof. by move=> pA x; rewrite form_congr. Qed.

Lemma tr_herm_mul_real n (A B : 'M[C]_n) :
  hermitian A -> hermitian B -> \tr (A *m B) \is Num.real.
Proof.
move=> hA hB; apply/CrealP.
by rewrite -mxtrace_trmxC trmxC_mul -hA -hB mxtrace_mulC.
Qed.

End Forms.

Section TraceProduct.

Variable C : numClosedFieldType.

Local Notation form A x := ((x *m A *m x^t*) 0 0).

Lemma hermitian_hermsymmx n (A : 'M[C]_n) : hermitian A -> A \is hermsymmx.
Proof. by move=> hA; apply/is_hermitianmxP; rewrite expr0 scale1r. Qed.

(* A Hermitian matrix is U^H D U for a unitary U and a diagonal D. *)
Lemma hermitian_spectral n (A : 'M[C]_n) : hermitian A ->
  exists U : 'M[C]_n, exists s : 'rV[C]_n,
    [/\ U *m U^t* = 1%:M, A = U^t* *m diag_mx s *m U
      & diag_mx s = U *m A *m U^t*].
Proof.
move=> hA.
have nA := hermitian_normalmx (hermitian_hermsymmx hA).
have uU := spectral_unitarymx A.
have eA := orthomx_spectralP nA.
rewrite invmx_unitary // in eA.
move: (spectralmx A) (spectral_diag A) uU eA => U s /unitarymxP e1 eA.
exists U, s; split=> //.
by rewrite [in RHS]eA !mulmxA e1 mul1mx -mulmxA e1 mulmx1.
Qed.

Lemma diag_entry_form n (U B : 'M[C]_n) (k : 'I_n) :
  (U *m B *m U^t*) k k = form B (row k U).
Proof.
rewrite -row_mul !mxE; apply: eq_bigr => l _.
by rewrite !mxE.
Qed.

Lemma tr_psd_mul_ge0 n (A B : 'M[C]_n) :
  hermitian A -> psd A -> hermitian B -> psd B -> 0 <= \tr (A *m B).
Proof.
move=> hA pA hB pB.
have [U [s [uU eA eD]]] := hermitian_spectral hA.
have -> : \tr (A *m B) = \sum_k s 0 k * form B (row k U).
  rewrite eA -!mulmxA mxtrace_mulC -!mulmxA mul_diag_mx /mxtrace.
  apply: eq_bigr => k _.
  by rewrite mxE mulmxA diag_entry_form.
apply: sumr_ge0 => k _; apply: mulr_ge0; last exact: psd_form_ge0.
have -> : s 0 k = form A (row k U).
  by rewrite -diag_entry_form -eD mxE eqxx mulr1n.
exact: psd_form_ge0.
Qed.

End TraceProduct.

Section Projector.

Variable C : numClosedFieldType.

Local Notation form A x := ((x *m A *m x^t*) 0 0).

Lemma mul11 (u v : 'M[C]_1) : (u *m v) 0 0 = u 0 0 * v 0 0.
Proof. by rewrite mxE big_ord1. Qed.

Lemma sqnormE d (x : 'rV[C]_d) : sqnorm x = \sum_k `|x 0 k| ^+ 2.
Proof.
by rewrite /sqnorm mxE; apply: eq_bigr => k _; rewrite !mxE normCK.
Qed.

Lemma sqnorm_ge0 d (x : 'rV[C]_d) : 0 <= sqnorm x.
Proof. by rewrite sqnormE sumr_ge0 // => k _; rewrite exprn_ge0. Qed.

Lemma sqnorm_eq0 d (x : 'rV[C]_d) : sqnorm x = 0 -> x = 0.
Proof.
rewrite sqnormE => /eqP; rewrite psumr_eq0.
  by move=> k _; rewrite exprn_ge0.
move=> /allP h; apply/rowP => k; rewrite mxE.
have := h k (mem_index_enum k).
by rewrite /= sqrf_eq0 normr_eq0 => /eqP.
Qed.

Lemma hermitian_outer d (x : 'rV[C]_d) : hermitian (x^t* *m x).
Proof. by rewrite /hermitian trmxC_mul trmxC_K. Qed.

Lemma hermitian_proj d (x : 'rV[C]_d) : hermitian (proj x).
Proof.
apply: hermitianZ; last exact: hermitian_outer.
by rewrite rpredV ger0_real // sqnorm_ge0.
Qed.

Lemma form_outer d (x y : 'rV[C]_d) :
  form (x^t* *m x) y = `|(y *m x^t*) 0 0| ^+ 2.
Proof.
rewrite mulmxA -mulmxA mul11 normCK; congr (_ * _).
by rewrite -entry_trmxC trmxC_mul trmxC_K.
Qed.

Lemma psd_proj d (x : 'rV[C]_d) : psd (proj x).
Proof.
apply: psdZ; first by rewrite invr_ge0 sqnorm_ge0.
by apply: form_ge0_psd => y; rewrite form_outer exprn_ge0.
Qed.

Lemma proj_idem d (x : 'rV[C]_d) : proj x *m proj x = proj x.
Proof.
rewrite /proj -scalemxAl -scalemxAr scalerA.
rewrite mulmxA -[x^t* *m x *m x^t*]mulmxA.
rewrite [x *m x^t*]mx11_scalar -/(sqnorm x) mul_mx_scalar -scalemxAl scalerA.
have [->|nz] := eqVneq (sqnorm x) 0; first by rewrite invr0 !mul0r !scale0r.
by rewrite divfK.
Qed.

Lemma tr_proj_mul d (x : 'rV[C]_d) (B : 'M[C]_d) :
  \tr (proj x *m B) = (sqnorm x)^-1 * form B x.
Proof. by rewrite /proj -scalemxAl mxtraceZ form_tr. Qed.

End Projector.

Section Quadratic.

Variable C : numClosedFieldType.

(* A real quadratic 2 e a + e^2 b that is non-negative on (0, 1] has a
   non-negative linear coefficient. *)
Lemma quadratic_ge0 (a b : C) :
  a \is Num.real ->
  (forall e, 0 < e -> e <= 1 -> 0 <= 2%:R * e * a + e ^+ 2 * b) ->
  0 <= a.
Proof.
move=> ra h.
have rb : b \is Num.real.
  have := h 1 ltr01 (lexx 1); rewrite mulr1 expr1n mul1r => /ger0_real.
  by rewrite rpredDl // rpredM // realn.
case: (real_leP real0 ra) => // a0.
have na : 0 < - a by rewrite oppr_gt0.
have dpos : 0 < `|b| - a by rewrite subr_gt0 (lt_le_trans a0).
pose e := - a / (`|b| - a).
have e0 : 0 < e by rewrite divr_gt0.
have e1 : e <= 1 by rewrite ler_pdivrMr // mul1r lerBrDr addNr.
have eb : e * `|b| = e * a - a.
  have /eqP := divfK (lt0r_neq0 dpos) (- a).
  by rewrite -/e mulrBr subr_eq => /eqP ->; rewrite addrC.
have := h e e0 e1.
have -> : 2%:R * e * a + e ^+ 2 * b = e * (2%:R * a + e * b) by field.
rewrite pmulr_rge0 // => ge.
have : 2%:R * a + e * b <= a * (1 + e).
  have -> : a * (1 + e) = 2%:R * a + (e * a - a) by field.
  by rewrite lerD2l -eb ler_wpM2l ?real_ler_norm // ltW.
move=> /(le_trans ge) le0.
have : a * (1 + e) < 0 by rewrite pmulr_llt0 // addr_gt0.
by move=> /(le_lt_trans le0); rewrite ltxx.
Qed.

End Quadratic.

(* --------------------------------------------------------------------- *)
(* Duality for state exclusion                                           *)
(* --------------------------------------------------------------------- *)

Section Duality.

Variable C : numClosedFieldType.
Variables (d n : nat) (A : nat -> 'M[C]_d).
Hypothesis hA : forall i, (i < n)%N -> hermitian (A i).

Local Notation form A x := ((x *m A *m x^t*) 0 0).
Local Notation primal_feasible := (primal_feasible n).
Local Notation primal_value := (primal_value n A).
Local Notation dual_feasible := (dual_feasible n A).

Lemma primal_valueE (M : nat -> 'M[C]_d) : primal_feasible M ->
  primal_value M = \sum_(i < n) \tr (M i *m A i).
Proof.
by case=> hM _; apply: eq_bigr => i _; have [<-] := hM i (ltn_ord i).
Qed.

Lemma weak_duality (M : nat -> 'M[C]_d) (Y : 'M[C]_d) :
  primal_feasible M -> dual_feasible Y -> dual_value Y <= primal_value M.
Proof.
move=> fM [hY pY]; rewrite (primal_valueE fM); case: fM => hM sM.
have -> : \sum_(i < n) \tr (M i *m A i)
          = dual_value Y + \sum_(i < n) \tr (M i *m (A i - Y)).
  rewrite /dual_value -[Y in \tr Y]mul1mx -sM mulmx_suml raddf_sum /=.
  rewrite -big_split /=; apply: eq_bigr => i _.
  by rewrite mulmxBr raddfB /= addrC subrK.
rewrite lerDl; apply: sumr_ge0 => i _.
have [h p] := hM i (ltn_ord i).
apply: tr_psd_mul_ge0 => //; last exact: pY.
by apply: hermitianD; [exact: hA | exact: hermitianN].
Qed.

(* ----- perturbing a measurement along a direction x ------------------- *)

Variable M : nat -> 'M[C]_d.
Hypothesis fM : primal_feasible M.

Local Notation perturbed := (perturbed M).
Local Notation certificate := (certificate n A M).
Local Notation slope := (slope n A M).
Local Notation curvature := (curvature n A M).

Lemma hermitian_nudge (x : 'rV[C]_d) e : e \is Num.real -> hermitian (nudge x e).
Proof.
move=> re; apply: hermitianD; first exact: hermitian1.
by apply/hermitianN/hermitianZ => //; exact: hermitian_proj.
Qed.

Lemma nudge_sq (x : 'rV[C]_d) e : e \is Num.real ->
  nudge x e *m (nudge x e)^t* = 1%:M - (e * (2%:R - e)) *: proj x.
Proof.
move=> re; rewrite -(hermitian_nudge x re) /nudge.
rewrite mulmxBl mul1mx mulmxBr mulmx1 -scalemxAl -scalemxAr proj_idem.
rewrite scalerA -scalerBl -addrA -opprD -scalerDl; congr (_ - _ *: _).
by field.
Qed.

Lemma sum_at (T : nmodType) j (F : nat -> T) : (j < n)%N ->
  \sum_(i < n) (if (i : nat) == j then F i else 0) = F j.
Proof.
by move=> jn; rewrite -big_mkcond /= (big_pred1 (Ordinal jn)).
Qed.

Lemma perturbed_feasible j (x : 'rV[C]_d) e : (j < n)%N -> 0 <= e -> e <= 1 ->
  primal_feasible (perturbed j x e).
Proof.
move=> jn e0 e1; have re := ger0_real e0; case: (fM) => hM sM.
have c0 : 0 <= e * (2%:R - e).
  by rewrite mulr_ge0 // subr_ge0 (le_trans e1) // ler1n.
split=> [i ltin|].
  have [h p] := hM i ltin; split.
    apply: hermitianD; first exact: hermitian_congr.
    case: ifP => _; last by rewrite /hermitian trmx0 map_mx0.
    by apply: hermitianZ; [exact: ger0_real | exact: hermitian_proj].
  apply: psdD; first exact: psd_congr.
  by case: ifP => _; [apply: psdZ => //; exact: psd_proj | exact: psd0].
rewrite big_split /= (sum_at (fun=> _ *: _)) //.
by rewrite -mulmx_suml -mulmx_sumr sM mulmx1 nudge_sq // subrK.
Qed.

Lemma tr_nudged_gen (P X B : 'M[C]_d) (e : C) :
  \tr ((1%:M - e *: P) *m X *m (1%:M - e *: P) *m B)
  = \tr (X *m B) - e * (\tr (P *m X *m B) + \tr (P *m B *m X))
    + e ^+ 2 * \tr (P *m X *m P *m B).
Proof.
rewrite !(mulmxBl, mulmxBr, mul1mx, mulmx1).
rewrite -!(scalemxAl, scalemxAr) !raddfB /= !mxtraceZ.
rewrite -[X *m P *m B]mulmxA (mxtrace_mulC X (P *m B)).
by field.
Qed.

Lemma tr_nudged (x : 'rV[C]_d) e (X B : 'M[C]_d) : e \is Num.real ->
  \tr (nudge x e *m X *m (nudge x e)^t* *m B)
  = \tr (X *m B)
    - e * (\tr (proj x *m X *m B) + \tr (proj x *m B *m X))
    + e ^+ 2 * \tr (proj x *m X *m proj x *m B).
Proof.
by move=> re; rewrite -(hermitian_nudge x re) /nudge tr_nudged_gen.
Qed.

Lemma perturbed_value j (x : 'rV[C]_d) e : (j < n)%N -> 0 <= e -> e <= 1 ->
  primal_value (perturbed j x e)
  = primal_value M + (2%:R * e * slope j x + e ^+ 2 * curvature j x).
Proof.
move=> jn e0 e1; have re := ger0_real e0.
rewrite (primal_valueE (perturbed_feasible x jn e0 e1)) (primal_valueE fM).
have -> : \sum_(i < n) \tr (perturbed j x e i *m A i)
  = \sum_(i < n) \tr (M i *m A i)
    - e * \sum_(i < n) (\tr (proj x *m M i *m A i)
                        + \tr (proj x *m A i *m M i))
    + e ^+ 2 * \sum_(i < n) \tr (proj x *m M i *m proj x *m A i)
    + (e * (2%:R - e)) * \tr (proj x *m A j).
  rewrite [e * \sum_(i < n) _]mulr_sumr [e ^+ 2 * \sum_(i < n) _]mulr_sumr.
  rewrite -sumrB -big_split /=.
  rewrite -[X in _ + X](sum_at (fun i => _ * \tr (proj x *m A i))) //.
  rewrite -big_split /=; apply: eq_bigr => i _.
  rewrite /perturbed mulmxDl raddfD /= tr_nudged //; congr (_ + _).
  by case: ifP => _; rewrite ?mul0mx ?mxtrace0 // -scalemxAl mxtraceZ.
have -> : slope j x
  = \tr (proj x *m A j)
    - 2%:R^-1 * \sum_(i < n) (\tr (proj x *m M i *m A i)
                              + \tr (proj x *m A i *m M i)).
  rewrite /slope /certificate mulmxBr raddfB /= -scalemxAr mxtraceZ.
  rewrite mulmxDr !mulmx_sumr raddfD /= !raddf_sum /= -big_split /=.
  congr (_ - _ * _); apply: eq_bigr => i _.
  by rewrite !mulmxA addrC.
rewrite /curvature.
by field.
Qed.

Hypothesis optM :
  forall M', primal_feasible M' -> primal_value M <= primal_value M'.

Lemma trmxC_sum (I : Type) (r : seq I) (F : I -> 'M[C]_d) :
  (\sum_(i <- r) F i)^t* = \sum_(i <- r) (F i)^t*.
Proof.
apply: (big_morph (fun X : 'M[C]_d => X^t*)) => [X Y|].
  by rewrite linearD /= map_mxD.
by rewrite trmx0 map_mx0.
Qed.

Lemma hermitian_certificate : hermitian certificate.
Proof.
case: (fM) => hM _.
apply: hermitianZ; first by rewrite rpredV realn.
rewrite /hermitian linearD /= map_mxD !trmxC_sum addrC; congr (_ + _).
  apply: eq_bigr => i _; have [h _] := hM i (ltn_ord i).
  by rewrite trmxC_mul -h -(hA (ltn_ord i)).
apply: eq_bigr => i _; have [h _] := hM i (ltn_ord i).
by rewrite trmxC_mul -h -(hA (ltn_ord i)).
Qed.

Lemma hermitian_gap j : (j < n)%N -> hermitian (A j - certificate).
Proof.
move=> jn; apply: hermitianD; first exact: hA.
exact/hermitianN/hermitian_certificate.
Qed.

Lemma slope_ge0 j (x : 'rV[C]_d) : (j < n)%N -> 0 <= slope j x.
Proof.
move=> jn; apply: (@quadratic_ge0 _ _ (curvature j x)).
  rewrite /slope tr_proj_mul rpredM //.
    by rewrite rpredV ger0_real // sqnorm_ge0.
  exact/herm_form_real/hermitian_gap.
move=> e e0 e1.
have := optM (perturbed_feasible x jn (ltW e0) e1).
by rewrite (perturbed_value x jn (ltW e0) e1) lerDl.
Qed.

Lemma certificate_feasible : dual_feasible certificate.
Proof.
split=> [|j jn]; first exact: hermitian_certificate.
apply: form_ge0_psd => x.
have [z|nz] := eqVneq (sqnorm x) 0.
  by rewrite (sqnorm_eq0 z) !mul0mx mxE.
have := slope_ge0 x jn; rewrite /slope tr_proj_mul.
by rewrite pmulr_rge0 // invr_gt0 lt0r nz sqnorm_ge0.
Qed.

Lemma certificate_value : dual_value certificate = primal_value M.
Proof.
rewrite /dual_value /certificate mxtraceZ raddfD /= !raddf_sum /=.
rewrite (primal_valueE fM).
have -> : \sum_(i < n) \tr (A i *m M i) = \sum_(i < n) \tr (M i *m A i).
  by apply: eq_bigr => i _; rewrite mxtrace_mulC.
by field.
Qed.

(* No duality gap: a dual optimum equals the primal optimum. *)
Theorem no_duality_gap (Y : 'M[C]_d) :
  dual_feasible Y ->
  (forall Y', dual_feasible Y' -> dual_value Y' <= dual_value Y) ->
  dual_value Y = primal_value M.
Proof.
move=> fY optY; apply/le_anti/andP; split; first exact: weak_duality.
by rewrite -certificate_value; apply/optY/certificate_feasible.
Qed.

End Duality.

(* --------------------------------------------------------------------- *)
(* Runs of state_exclusion                                               *)
(* --------------------------------------------------------------------- *)

Section Comprehensions.

Variables (E A B : Type).

Lemma every_cat (P : A -> Prop) (xs ys : seq A) :
  every P (xs ++ ys) <-> every P xs /\ every P ys.
Proof.
elim: xs => [|x xs IH] /=; first by split=> [|[]].
by rewrite IH; split=> [[? []]|[[]]].
Qed.

Lemma every_map (P : B -> Prop) (f : A -> B) (xs : seq A) :
  every P [seq f x | x <- xs] <-> every (fun x => P (f x)) xs.
Proof. by elim: xs => [|x xs IH] //=; rewrite IH. Qed.

Lemma every_iota (P : nat -> Prop) m n :
  every P (iota m n) <-> forall i, (m <= i < m + n)%N -> P i.
Proof.
elim: n m => [|n IH] m /=.
  by split=> // _ i; rewrite addn0; case: ltngtP.
rewrite IH; split=> [[pm h] i|h].
  rewrite leq_eqVlt addnS -addSn => /andP[/orP[/eqP <- //|lt] ub].
  by apply: h; rewrite lt.
split; first by apply: h; rewrite leqnn addnS ltnS leq_addr.
by move=> i /andP[lt ub]; apply: h; rewrite (ltnW lt) addnS -addSn.
Qed.

Lemma flatten_singletons (f : A -> B) (xs : seq A) :
  flatten [seq [:: f x] | x <- xs] = [seq f x | x <- xs].
Proof. by elim: xs => [|x xs IH] //=; rewrite IH. Qed.

Lemma getitem_nth (x0 : A) (xs : seq A) i :
  (i < size xs)%N -> getitem xs i = Return (nth x0 xs i).
Proof. by move=> lt; rewrite /getitem (drop_nth x0 lt). Qed.

Lemma getitem_out (xs : seq A) i :
  (size xs <= i)%N -> getitem xs i = Raise IndexError.
Proof. by move=> le; rewrite /getitem drop_oversize. Qed.

(* A comprehension whose body neither fails nor depends on the log. *)
Lemma comprehension_run (body : A -> py (seq E) B) (f : A -> B)
  (ev : A -> seq E) (xs : seq A) (l : seq E) :
  every (fun x => forall l, body x l = (Return (f x), l ++ ev x)) xs ->
  comprehension body xs l
  = (Return [seq f x | x <- xs], l ++ flatten [seq ev x | x <- xs]).
Proof.
elim: xs l => [|x xs IH] l /=; first by rewrite cats0.
by case=> hx hxs; rewrite /bind hx IH //= catA.
Qed.

Lemma comprehension_pure (body : A -> py (seq E) B) (f : A -> B)
  (xs : seq A) (l : seq E) :
  every (fun x => forall l, body x l = (Return (f x), l)) xs ->
  comprehension body xs l = (Return [seq f x | x <- xs], l).
Proof.
elim: xs l => [|x xs IH] l //=.
by case=> hx hxs; rewrite /bind hx IH.
Qed.

End Comprehensions.

Section ExclusionRun.

Variable C : numClosedFieldType.
Variable picos_solve : string -> problem C -> result (solution C).

Local Notation ndarray := (ndarray C).
Local Notation nd0 := (nd0 C).
Local Notation state_exclusion := (state_exclusion picos_solve).

Lemma weighted_projector_column (p : C) (vector : ndarray) d :
  shape vector = [:: d; 1%N] ->
  weighted_projector p vector = Return (outer p vector d).
Proof. by move=> sv; rewrite /weighted_projector /nd_matmul /= sv. Qed.

Lemma mx_of_outer (p : C) (vector : ndarray) d :
  mx_of (outer p vector d) d d
  = p *: (column vector d *m (column vector d)^t*).
Proof.
apply/matrixP => i j; rewrite !mxE /= !big_ord1 !mxE /=.
by rewrite mulrA.
Qed.

Lemma first_dim_column (vectors : seq ndarray) d v0 rest :
  vectors = v0 :: rest -> columns d vectors -> first_dim vectors = Return d.
Proof. by move=> -> /= /andP[/eqP sv _]; rewrite /first_dim /= sv. Qed.

Lemma columns_nth d (vectors : seq ndarray) i :
  columns d vectors -> (i < size vectors)%N ->
  shape (nth nd0 vectors i) = [:: d; 1%N].
Proof. by move=> /all_nthP h lt; apply/eqP/h. Qed.

Lemma zip_iota_nth (vectors : seq ndarray) :
  zip (iota 0 (size vectors)) vectors
  = [seq (i, nth nd0 vectors i) | i <- iota 0 (size vectors)].
Proof.
apply: (@eq_from_nth _ (0%N, nd0)).
  by rewrite size_zip size_map size_iota minnn.
move=> i; rewrite size_zip size_iota minnn => lt.
rewrite nth_zip ?size_iota // (nth_map 0%N) ?size_iota //.
by rewrite nth_iota.
Qed.

Lemma every_map_iota (B : Type) (P : B -> Prop) (f : nat -> B) m n :
  every P [seq f i | i <- iota m n] <-> forall i, (m <= i < m + n)%N -> P (f i).
Proof.
split=> [/every_map/every_iota //|h].
exact/every_map/every_iota.
Qed.

(* ----- the dual path --------------------------------------------------- *)

Lemma log_shape (E : Type) (l : seq E) a b cs z :
  rcons (rcons (rcons l a) b ++ cs) z = l ++ a :: b :: cs ++ [:: z].
Proof. by rewrite -!cats1 -!catA. Qed.

Lemma min_error_dual_run (vectors : seq ndarray) (probs : seq C)
  (solver : string) (l : log C) d v0 rest :
  vectors = v0 :: rest -> columns d vectors ->
  (size vectors <= size probs)%N ->
  _min_error_dual picos_solve vectors probs solver l
  = (dual_result vectors (picos_solve solver (dual_problem vectors probs d)),
     l ++ dual_events vectors probs d).
Proof.
move=> ev cols szp.
rewrite /_min_error_dual /bind (first_dim_column ev cols) /=.
rewrite zip_iota_nth.
pose f (iv : nat * ndarray) : constr C :=
  CLoewnerLe (Var (Yvar d)) (Const (outer (nth 0 probs iv.1) iv.2 d)).
rewrite (@comprehension_run _ _ _ _ f (fun iv => [:: EvConstraint (f iv)])).
  apply/every_map_iota => i; rewrite add0n leq0n /= => lt l'.
  rewrite /bind /= (getitem_nth 0) ?(leq_trans lt) //=.
  by rewrite (weighted_projector_column _ (columns_nth cols lt)) /= cats1.
rewrite -!map_comp flatten_singletons /=.
rewrite /picos_problem_solve /bind /=.
rewrite -/(dual_constraints vectors probs d) -/(dual_problem vectors probs d).
case: (picos_solve _ _) => [sol|e] /=; last first.
  by rewrite log_shape /dual_events /dual_constraints -map_comp.
rewrite (@comprehension_pure _ _ _ _ (fun k => OpValue (duals sol k))).
  apply/every_iota => i; rewrite add0n leq0n /= => lt l'.
  by rewrite /bind (getitem_nth (CPsd (Eye 0))) // size_map size_iota.
by rewrite log_shape /dual_events /dual_constraints -map_comp.
Qed.

End ExclusionRun.

Section PrimalRun.

Variable C : numClosedFieldType.
Variable picos_solve : string -> problem C -> result (solution C).

Local Notation ndarray := (ndarray C).
Local Notation primal_constraints := (primal_constraints C).
Local Notation state_exclusion := (state_exclusion picos_solve).

Lemma log_shape3 (E : Type) (l : seq E) a vs cs t z :
  rcons (rcons ((rcons l a ++ vs) ++ cs) t) z
  = l ++ a :: vs ++ (cs ++ [:: t]) ++ [:: z].
Proof. by rewrite -!cats1 -!catA. Qed.

Lemma min_error_primal_run (vectors : seq ndarray) (probs : seq C)
  (solver : string) (l : log C) d v0 rest :
  vectors = v0 :: rest -> columns d vectors ->
  (size vectors <= size probs)%N ->
  _min_error_primal picos_solve vectors probs solver l
  = (primal_result vectors d
       (picos_solve solver (primal_problem vectors probs d)),
     l ++ primal_events vectors probs d).
Proof.
move=> ev cols szp.
rewrite /_min_error_primal /bind (first_dim_column ev cols) /=.
rewrite (@comprehension_run _ _ _ _ (Mvar d) (fun i => [:: EvVariable (Mvar d i)])).
  by apply/every_iota => i _ l'; rewrite /new_variable /bind /= cats1.
rewrite flatten_singletons -/(measurement_vars d (size vectors)).
rewrite (@comprehension_run _ _ _ _ (fun m => CPsd (Var m))
           (fun m => [:: EvConstraint (CPsd (Var m))])).
  by apply/every_map_iota => i _ l'; rewrite /new_constraint /bind /= cats1.
rewrite flatten_singletons /=.
rewrite (@comprehension_pure _ _ _ _
           (fun i => Inner (Const (outer (nth 0 probs i)
                                         (nth (nd0 C) vectors i) d))
                           (Var (Mvar d i)))).
  apply/every_iota => i; rewrite add0n leq0n /= => lt l'.
  rewrite /bind /= (getitem_nth 0) ?(leq_trans lt) //=.
  rewrite (getitem_nth (nd0 C)) //=.
  rewrite (weighted_projector_column _ (columns_nth cols lt)) /=.
  rewrite (getitem_nth (Mvar d 0)) ?size_map ?size_iota //.
  by rewrite (nth_map 0%N) ?size_iota // nth_iota.
rewrite -/(primal_terms vectors probs d) /picos_problem_solve /bind /=.
rewrite -[_ ++ [:: CEq _ _]]/(primal_constraints (size vectors) d).
rewrite -/(primal_problem vectors probs d).
rewrite log_shape3.
have -> : l ++ EvProblem
            :: [seq EvVariable (Mvar d x) | x <- iota 0 (size vectors)]
            ++ ([seq EvConstraint (CPsd (Var x))
                | x <- measurement_vars d (size vectors)]
                ++ [:: EvConstraint
                         (CEq (Sum [seq Var meas
                                   | meas <- measurement_vars d (size vectors)])
                              (Eye d))])
            ++ [:: EvSolve (primal_problem vectors probs d)]
          = l ++ primal_events vectors probs d.
  rewrite /primal_events /primal_constraints map_cat /=.
  by rewrite /measurement_vars -!map_comp.
by case: (picos_solve _ _).
Qed.

End PrimalRun.

(* --------------------------------------------------------------------- *)
(* The programmes of state_exclusion                                     *)
(* --------------------------------------------------------------------- *)

Section ExclusionSemantics.

Variable C : numClosedFieldType.

Local Notation ndarray := (ndarray C).
Local Notation smx := (smx C).

Lemma every_flatten (A : Type) (P : A -> Prop) (xss : seq (seq A)) :
  every P (flatten xss) <-> every (every P) xss.
Proof.
elim: xss => [|xs xss IH] //=.
by rewrite every_cat IH.
Qed.

Lemma all_some_map (A B : Type) (f : A -> B) (xs : seq A) :
  all_some [seq Some (f x) | x <- xs] = Some [seq f x | x <- xs].
Proof. by elim: xs => [|x xs IH] //=; rewrite IH. Qed.

Lemma smx_sum_from r c (F : nat -> 'M[C]_(r, c)) (B : 'M[C]_(r, c)) s :
  foldl (fun acc Y => obind ((@smx_add C)^~ Y) acc) (Some (Smx B))
        [seq Smx (F i) | i <- s]
  = Some (Smx (B + \sum_(i <- s) F i)).
Proof.
elim: s B => [|i s IH] B /=; first by rewrite big_nil addr0.
by rewrite smx_addE IH big_cons addrA.
Qed.

Lemma smx_sum_iota r c (F : nat -> 'M[C]_(r, c)) n : (0 < n)%N ->
  smx_sum [seq Smx (F i) | i <- iota 0 n] = Some (Smx (\sum_(i < n) F i)).
Proof.
case: n => // n _; rewrite /= smx_sum_from; congr (Some (Smx _)).
by rewrite -(big_mkord xpredT F) big_ltn // /index_iota subSS subn0.
Qed.

Lemma denote_outer vals env p (v : ndarray) d :
  denote vals env (Const (outer p v d))
  = Some (Smx (p *: (column v d *m (column v d)^t*))).
Proof. by rewrite /= /smx_of_array /= mx_of_outer. Qed.

(* ----- the dual programme ---------------------------------------------- *)

Lemma dual_feasibleP (vectors : seq ndarray) (probs : seq C) d
  (env : name -> smx) :
  feasible (dual_problem vectors probs d) env
  <-> exists2 Y : 'M[C]_d, env Name_Y = Smx Y
        & dual_feasible (size vectors) (weighted vectors probs d) Y.
Proof.
rewrite /feasible /problem_vars /= every_cat /=.
split.
  case=> [[_ [fY _]]] /every_map_iota hc.
  have [Y eY hY] := fits_shape fY; rewrite /= in Y eY hY.
  exists Y => //; split; first exact/smx_hermitianE/hY.
  move=> i lt; have := hc i; rewrite add0n leq0n /= => /(_ lt).
  by rewrite eY /smx_of_array /= mx_of_outer smx_subE => /smx_psdE.
case=> Y eY [hY pY]; split.
  split; last by split=> //; rewrite eY; split=> // _; exact/smx_hermitianE.
  apply/every_flatten/every_map/every_map_iota => i _ /=.
  by rewrite eY; split=> //; split=> // _; exact/smx_hermitianE.
apply/every_map_iota => i; rewrite add0n leq0n /= => lt.
rewrite eY /smx_of_array /= mx_of_outer smx_subE; apply/smx_psdE.
exact: pY.
Qed.

Lemma dual_objective (vectors : seq ndarray) (probs : seq C) d
  (env : name -> smx) (Y : 'M[C]_d) :
  env Name_Y = Smx Y ->
  objective_value (dual_problem vectors probs d) env = Some (dual_value Y).
Proof.
move=> eY; rewrite /objective_value /= eY smx_traceE /= smx_scalarE.
by rewrite mxE mulr1n.
Qed.

End ExclusionSemantics.

Section PrimalSemantics.

Variable C : numClosedFieldType.

Local Notation ndarray := (ndarray C).
Local Notation smx := (smx C).

Lemma mx_atE r c (A : 'M[C]_(r, c)) : mx_at (Smx A) r c = A.
Proof.
rewrite /mx_at /=; case: eqP => // e1; case: eqP => // e2.
by rewrite castmx_id.
Qed.

Lemma fits_Mvar d i (X : smx) :
  fits (Mvar d i) X <-> X = Smx (mx_at X d d) /\ hermitian (mx_at X d d).
Proof.
split=> [f|[e h]].
  have [A -> hA] := fits_shape f; rewrite /= in A hA *.
  by rewrite mx_atE; split=> //; exact/smx_hermitianE/hA.
by rewrite e; split=> // _; exact/smx_hermitianE.
Qed.

Lemma primal_vars (vectors : seq ndarray) (probs : seq C) d :
  problem_vars (primal_problem vectors probs d)
  = measurement_vars d (size vectors)
    ++ measurement_vars d (size vectors)
    ++ measurement_vars d (size vectors).
Proof.
rewrite /problem_vars /= /primal_constraints map_cat flatten_cat /=.
rewrite -!map_comp /= !flatten_singletons cats0 -catA; congr (_ ++ (_ ++ _)).
by rewrite cats0.
Qed.

Lemma every_measurement (P : variable -> Prop) d n :
  every P (measurement_vars d n) <-> forall i, (i < n)%N -> P (Mvar d i).
Proof.
rewrite /measurement_vars every_map_iota.
by split=> h i lt; apply: h; rewrite ?add0n ?leq0n //; move: lt; rewrite add0n.
Qed.

Lemma denote_measurements vals (env : name -> smx) d n (M : nat -> 'M[C]_d) :
  (forall i, (i < n)%N -> env (Name_M i) = Smx (M i)) -> (0 < n)%N ->
  obind (@smx_sum C)
    (all_some [seq denote vals env e1
              | e1 <- [seq Var m | m <- measurement_vars d n]])
  = Some (Smx (\sum_(i < n) M i)).
Proof.
move=> eM n0; rewrite /measurement_vars -!map_comp.
have -> : [seq (denote vals env \o (Var \o Mvar d)) i | i <- iota 0 n]
          = [seq Some (Smx (M i)) | i <- iota 0 n].
  by apply/eq_in_map => i; rewrite mem_iota add0n /= => lt; rewrite eM.
by rewrite all_some_map /= smx_sum_iota.
Qed.

Lemma primal_feasibleP (vectors : seq ndarray) (probs : seq C) d
  (env : name -> smx) :
  (0 < size vectors)%N ->
  feasible (primal_problem vectors probs d) env
  <-> exists2 M : nat -> 'M[C]_d,
        (forall i, (i < size vectors)%N -> env (Name_M i) = Smx (M i))
        & primal_feasible (size vectors) M.
Proof.
move=> n0; rewrite /feasible primal_vars !every_cat /=.
split.
  case=> [[/every_measurement fM _]] [/every_map/every_measurement pM [tot _]].
  exists (fun i => mx_at (env (Name_M i)) d d).
    by move=> i lt; have /fits_Mvar[] := fM i lt.
  have eM i : (i < size vectors)%N ->
      env (Name_M i) = Smx (mx_at (env (Name_M i)) d d).
    by move=> lt; have /fits_Mvar[] := fM i lt.
  split=> [i lt|].
    have /fits_Mvar[_ h] := fM i lt; split=> //.
    by have := pM i lt; rewrite /= {1}(eM i lt) => /smx_psdE.
  by move: tot; rewrite (denote_measurements _ eM) // => /smx_eqE.
case=> M eM [hM sM].
have fM : every (fun v => fits v (env (v_name v)))
                (measurement_vars d (size vectors)).
  apply/every_measurement => i lt; apply/fits_Mvar.
  by rewrite /= eM // mx_atE; split=> //; have [] := hM i lt.
do !split=> //.
  apply/every_map/every_measurement => i lt /=.
  by rewrite eM //; apply/smx_psdE; have [] := hM i lt.
by rewrite (denote_measurements _ eM) //; apply/smx_eqE.
Qed.

Lemma primal_objective (vectors : seq ndarray) (probs : seq C) d
  (env : name -> smx) (M : nat -> 'M[C]_d) :
  (0 < size vectors)%N ->
  (forall i, (i < size vectors)%N -> env (Name_M i) = Smx (M i)) ->
  objective_value (primal_problem vectors probs d) env
  = Some (primal_value (size vectors) (weighted vectors probs d) M).
Proof.
move=> n0 eM; rewrite /objective_value /= /primal_terms -map_comp.
have -> : [seq (denote [::] env
                \o (fun i => Inner (Const (outer (nth 0 probs i)
                                            (nth (nd0 C) vectors i) d))
                                   (Var (Mvar d i)))) i
          | i <- iota 0 (size vectors)]
          = [seq Some (Smx ((\tr ((M i)^t* *m weighted vectors probs d i))%:M
                            : 'M[C]_1))
            | i <- iota 0 (size vectors)].
  apply/eq_in_map => i; rewrite mem_iota add0n /= => lt.
  rewrite /smx_of_array /= mx_of_outer eM // /smx_inner /smx_conjT /=.
  by rewrite smx_mulE /= smx_traceE.
rewrite all_some_map /= smx_sum_iota //= smx_scalarE summxE.
by congr Some; apply: eq_bigr => i _; rewrite mxE mulr1n.
Qed.

End PrimalSemantics.

Section ExclusionDuality.

Variable C : numClosedFieldType.

Local Notation ndarray := (ndarray C).
Local Notation smx := (smx C).

Lemma valid_probs_real n (probs : seq C) i :
  valid_probs n probs -> nth 0 probs i \is Num.real.
Proof.
case/and3P=> _ /all_nthP h _; apply: ger0_real.
by case: (ltnP i (size probs)) => [/h ->//|le]; rewrite nth_default.
Qed.

Lemma hermitian_weighted (vectors : seq ndarray) (probs : seq C) d n i :
  valid_probs n probs -> hermitian (weighted vectors probs d i).
Proof.
move=> vp; apply: hermitianZ; first exact: valid_probs_real vp.
by rewrite /hermitian trmxC_mul trmxC_K.
Qed.

Lemma primal_optimalP (vectors : seq ndarray) (probs : seq C) d a :
  (0 < size vectors)%N ->
  optimal_value (primal_problem vectors probs d) a ->
  exists M : nat -> 'M[C]_d,
    [/\ primal_feasible (size vectors) M,
        primal_value (size vectors) (weighted vectors probs d) M = a
      & forall M', primal_feasible (size vectors) M' ->
          a <= primal_value (size vectors) (weighted vectors probs d) M'].
Proof.
move=> n0 [[env /(@primal_feasibleP _ vectors probs d env n0) [M eM fM] ov] best].
exists M; split=> //.
  by move: ov; rewrite (@primal_objective _ vectors probs d env M n0 eM) => -[].
move=> M' fM'.
have f' : feasible (primal_problem vectors probs d) (env_of_measurement M').
  by apply/(@primal_feasibleP _ vectors probs d _ n0); exists M'.
exact: (best _ _ f' (@primal_objective _ vectors probs d _ M' n0
                        (fun i _ => erefl))).
Qed.

Lemma dual_optimalP (vectors : seq ndarray) (probs : seq C) d b :
  optimal_value (dual_problem vectors probs d) b ->
  exists Y : 'M[C]_d,
    [/\ dual_feasible (size vectors) (weighted vectors probs d) Y,
        dual_value Y = b
      & forall Y', dual_feasible (size vectors) (weighted vectors probs d) Y' ->
          dual_value Y' <= b].
Proof.
case=> [[env /dual_feasibleP [Y eY fY] ov] best].
exists Y; split=> //.
  by move: ov; rewrite (@dual_objective _ vectors probs d env Y eY) => -[].
move=> Y' fY'.
have f' : feasible (dual_problem vectors probs d) (fun=> Smx Y').
  by apply/dual_feasibleP; exists Y'.
exact: (best _ _ f' (@dual_objective _ vectors probs d (fun=> Smx Y') Y'
                        erefl)).
Qed.

(* The two programmes built by the source have one optimal value. *)
Lemma exclusion_no_gap (vectors : seq ndarray) (probs : seq C) d a b :
  (0 < size vectors)%N -> valid_probs (size vectors) probs ->
  optimal_value (primal_problem vectors probs d) a ->
  optimal_value (dual_problem vectors probs d) b ->
  a = b.
Proof.
move=> n0 vp /(primal_optimalP n0) [M [fM <- optM]].
move=> /dual_optimalP [Y [fY <- optY]].
apply/esym/(no_duality_gap _ fM optM fY optY) => i _.
exact: hermitian_weighted vp.
Qed.

End ExclusionDuality.

Section ExclusionTheorems.

Variable C : numClosedFieldType.
Variable picos_solve : string -> problem C -> result (solution C).

Local Notation ndarray := (ndarray C).
Local Notation smx := (smx C).
Local Notation state_exclusion := (state_exclusion picos_solve).

Lemma state_exclusion_run (vectors : seq ndarray) (probs : option (seq C))
  (solver primal_dual : string) (l : log C) d v0 rest :
  vectors = v0 :: rest -> columns d vectors ->
  state_exclusion vectors probs solver primal_dual l
  = match (if probs is Some given then Return given else uniform C d) with
    | Return ps =>
        if String.eqb primal_dual "primal"
        then _min_error_primal picos_solve vectors ps solver l
        else _min_error_dual picos_solve vectors ps solver l
    | Raise e => (Raise e, l)
    end.
Proof.
move=> ev cols.
rewrite /state_exclusion /bind (same_shape_run _ ev) all_map /=.
have -> : all (preim (fun w : ndarray => shape w == shape v0) id) vectors.
  move: cols; rewrite ev /= => /andP[/eqP -> cols]; rewrite eqxx /=.
  by apply: sub_all cols => w /eqP sw; rewrite /= sw.
rewrite /= (first_dim_column ev cols) /=.
case: probs => [ps|] /=; first by case: String.eqb.
by rewrite /lift; case: (uniform C d) => //= ps; case: String.eqb.
Qed.

Lemma primal_optimal_iff (vectors : seq ndarray) (probs : seq C) d a :
  (0 < size vectors)%N ->
  optimal_value (primal_problem vectors probs d) a
  <-> exclusion_primal_optimum (size vectors) (weighted vectors probs d) a.
Proof.
move=> n0; split; first exact: primal_optimalP.
case=> M [fM vM best]; split.
  exists (env_of_measurement M).
    by apply/(@primal_feasibleP _ vectors probs d _ n0); exists M.
  by rewrite (@primal_objective _ vectors probs d _ M n0) // vM.
move=> env w /(@primal_feasibleP _ vectors probs d env n0) [M' eM' fM'].
rewrite (@primal_objective _ vectors probs d env M' n0 eM') => -[<-].
exact: best.
Qed.

Lemma dual_optimal_iff (vectors : seq ndarray) (probs : seq C) d b :
  optimal_value (dual_problem vectors probs d) b
  <-> exclusion_dual_optimum (size vectors) (weighted vectors probs d) b.
Proof.
split; first exact: dual_optimalP.
case=> Y [fY vY best]; split.
  exists (fun=> Smx Y); first by apply/dual_feasibleP; exists Y.
  by rewrite (@dual_objective _ vectors probs d _ Y) // vY.
move=> env w /dual_feasibleP [Y' eY' fY'].
rewrite (@dual_objective _ vectors probs d env Y' eY') => -[<-].
exact: best.
Qed.

End ExclusionTheorems.

(* --------------------------------------------------------------------- *)
(* The divisibility test of realignment                                  *)
(* --------------------------------------------------------------------- *)

Section RoundFacts.

Lemma np_round_int (x : rat) : exists m : int, np_round x = m%:~R.
Proof.
rewrite /np_round; case: ifP => _; first by exists (Num.floor x).
case: ifP => _; first by exists (Num.floor x + 1).
by case: ifP => _; [exists (Num.floor x + 1) | exists (Num.floor x)].
Qed.

Lemma np_round_intr (k : int) : np_round k%:~R = k%:~R.
Proof.
by rewrite /np_round intrKfloor subrr invr_gt0 ltr0n.
Qed.

Lemma eps_gt0 : 0 < eps.
Proof. by rewrite /eps invr_gt0 exprn_gt0 // ltr0n. Qed.

(* A row count that dim divides passes the test (unless it is 0). *)
Lemma valid_dim_divides (rows : nat) (dim : int) :
  dim != 0 -> (dim %| rows%:Z)%Z -> (0 < rows)%N -> ~~ invalid_dim rows dim.
Proof.
move=> nz /dvdzP [k ek] r0; rewrite /invalid_dim.
move: eps eps_gt0 => e e0.
have -> : rows%:R / dim%:~R = k%:~R :> rat.
  by rewrite -[rows%:R]/(rows%:Z%:~R) ek intrM mulfK // intr_eq0.
rewrite np_round_intr subrr normr0 -ltNge.
by rewrite !mulr_gt0 ?ltr0n.
Qed.


Lemma scale_gen (F : fieldType) (x : F) n :
  x != 0 -> x * x ^+ n * x ^- n.+1 = 1.
Proof. by move=> h; rewrite -exprS divff // expf_neq0. Qed.

Lemma eps_scale : 2%:R * (expn 2 51)%:R * eps = 1 :> rat.
Proof. by rewrite natrX; apply: scale_gen; rewrite pnatr_eq0. Qed.

Lemma invalid_dim_nondivisor (rows : nat) (dim : int) :
  dim != 0 -> ~~ (dim %| rows%:Z)%Z -> (rows * `|dim| <= expn 2 51)%N ->
  invalid_dim rows dim.
Proof.
move=> nz nd bound; rewrite /invalid_dim.
move: eps eps_gt0 eps_scale => e e0 es.
have [m ->] := np_round_int (rows%:R / dim%:~R).
have dq : (dim%:~R : rat) != 0 by rewrite intr_eq0.
have -> : rows%:R / dim%:~R - m%:~R = (rows%:Z - m * dim)%:~R / dim%:~R :> rat.
  by rewrite intrD intrN intrM mulrBl mulfK.
have nzn : rows%:Z - m * dim != 0.
  apply: contraNneq nd => /eqP; rewrite subr_eq0 => /eqP ->.
  exact: dvdz_mull.
rewrite normf_div -!intr_norm ler_pdivlMr; first by rewrite ltr0z normr_gt0.
apply: (@le_trans _ _ 1); last by rewrite ler1z -gtz0_ge1 normr_gt0.
have -> : 2%:R * rows%:R * e * `|dim|%:~R = 2%:R * (rows * `|dim|)%:R * e.
  rewrite natrM -[(`|dim|%N)%:R]/((`|dim|%N : int)%:~R) abszE.
  by rewrite -!mulrA [e * _]mulrC.
have two : 0 < (2%:R : rat) by rewrite ltr0n.
rewrite -[X in _ <= X]es (ler_pM2r e0) (ler_pM2l two) ler_nat.
exact: bound.
Qed.

End RoundFacts.

Section RealignmentTheorem.

Variable C : numClosedFieldType.
Variable swap : ndarray C -> seq nat -> dims -> bool -> result (ndarray C).
Variable partial_transpose : ndarray C -> nat -> dims -> result (ndarray C).

Local Notation realignment := (realignment swap partial_transpose).
Local Notation realignment_with := (realignment_with swap partial_transpose).
Local Notation realignment_1_4 := (realignment_1_4 swap partial_transpose).

Lemma realignment_with_1_4 (input_mat : ndarray C) :
  realignment_with input_mat [:: [:: 1]; [:: 4%:R]]
  = realignment_1_4 input_mat.
Proof. by []. Qed.

Lemma realignment_int (input_mat : ndarray C) (dim : int) rows rest :
  shape input_mat = rows :: rest -> dim != 0 ->
  realignment input_mat (DimInt dim)
  = if invalid_dim rows dim then Raise InvalidDim
    else realignment_1_4 input_mat.
Proof.
move=> sh nz; rewrite /realignment /dim_of_int sh /= (negbTE nz).
by case: (invalid_dim rows dim).
Qed.

End RealignmentTheorem.

(* --------------------------------------------------------------------- *)
(* Claims                                                                *)
(* --------------------------------------------------------------------- *)

Section DiamondTheorems.

Variable C : numClosedFieldType.
Variable cvxpy_solve : problem C -> result C.

Local Notation ndarray := (ndarray C).
Local Notation smx := (smx C).
Local Notation diamond_norm := (diamond_norm cvxpy_solve).

Lemma diamond_optimal_iff d (delta : ndarray) v :
  shape delta = [:: (d * d)%N; (d * d)%N] ->
  optimal_value (diamond_problem d (d * d) delta) v
  <-> watrous_optimum (mx_of delta (d * d) (d * d)) v.
Proof.
move=> sd; split.
  case=> [[env /diamond_feasible [rho [W [er ew fW]]] ov] best]; split.
    exists rho, W => //.
    by move: ov; rewrite (diamond_objective_value sd ew) => -[].
  move=> rho' W' f'.
  have fe : feasible (diamond_problem d (d * d) delta) (env_of_pair rho' W').
    by apply/diamond_feasible; exists rho', W'.
  exact: (best _ _ fe (@diamond_objective_value _ d delta _ W' sd erefl)).
case=> [[rho [W fW vW]] best]; split.
  exists (env_of_pair rho W).
    by apply/diamond_feasible; exists rho, W.
  by rewrite (@diamond_objective_value _ d delta _ W sd erefl) vW.
move=> env w /diamond_feasible [rho' [W' [er ew fW']]].
rewrite (diamond_objective_value sd ew) => -[<-].
exact: best fW'.
Qed.

(** C1. diamond_norm on two Choi matrices of side d^2 hands cvxpy the
    Watrous programme for the Hermitized difference
    Delta = ((J1 - J2) + (J1 - J2)^H) / 2: the feasible points are the
    pairs of a d x d Hermitian positive semidefinite rho of trace 1 and a
    d^2 x d^2 Hermitian positive semidefinite W with W below I_d (x) rho,
    the objective is Re Tr(Delta^H W), maximised; diamond_norm returns
    twice the value the solver reports. *)
Theorem diamond_norm_watrous_sdp (choi_1 choi_2 : ndarray) (d : nat)
  (l : log C) :
  shape choi_1 = [:: (d * d)%N; (d * d)%N] ->
  shape choi_2 = [:: (d * d)%N; (d * d)%N] ->
  let Delta := hermitized (mx_of choi_1 (d * d) (d * d))
                          (mx_of choi_2 (d * d) (d * d)) in
  exists delta_choi : ndarray,
    let P := diamond_problem d (d * d) delta_choi in
    [/\ diamond_norm choi_1 choi_2 l
        = (doubled (cvxpy_solve P), l ++ diamond_events d (d * d) delta_choi),
        mx_of delta_choi (d * d) (d * d) = Delta,
        forall env, feasible P env
          <-> exists rho : 'M[C]_d, exists W : 'M[C]_(d * d),
                [/\ env Name_rho = Smx rho, env Name_w_var = Smx W
                  & watrous_feasible rho W],
        forall env (W : 'M[C]_(d * d)), env Name_w_var = Smx W ->
          objective_value P env = Some (watrous_objective Delta W)
      & omap fst (p_objective P) = Some Maximize
        /\ forall v, optimal_value P v <-> watrous_optimum Delta v].
Proof.
move=> s1 s2 Delta; exists (delta_of choi_1 choi_2).
have sd : shape (delta_of choi_1 choi_2) = [:: (d * d)%N; (d * d)%N].
  by rewrite /delta_of s1.
split.
- by rewrite (diamond_norm_run _ _ s1 s2) int_sqrt_square.
- exact: mx_of_delta.
- exact: diamond_feasible.
- by move=> env W ew; rewrite (diamond_objective_value sd ew) mx_of_delta.
- split=> // v.
  by rewrite (diamond_optimal_iff _ sd) mx_of_delta.
Qed.

(** C7. For a Choi matrix J of side d^2 (d > 0), the Hermitized
    difference of J with itself is the zero matrix, the objective of the
    programme diamond_norm(J, J) builds is 0 at every feasible point, its
    optimal value is 0, and so a solver that reports the optimal value
    within tol makes diamond_norm(J, J) return a number within 2 tol of
    0. *)
Theorem diamond_norm_self_zero (J : ndarray) (d : nat) (l : log C)
  (tol x : C) :
  (0 < d)%N -> shape J = [:: (d * d)%N; (d * d)%N] ->
  let P := diamond_problem d (d * d) (delta_of J J) in
  cvxpy_solve P = Return x ->
  (forall v, optimal_value P v -> `|x - v| <= tol) ->
  [/\ (diamond_norm J J l).1 = Return (x * 2%:R),
      mx_of (delta_of J J) (d * d) (d * d) = 0,
      forall env, feasible P env -> objective_value P env = Some 0,
      optimal_value P 0
    & `|x * 2%:R| <= 2%:R * tol].
Proof.
move=> d0 sJ P solved acc.
have opt0 : optimal_value P 0 by exact: diamond_self_optimal.
split=> //.
- by rewrite (diamond_norm_run _ _ sJ sJ) int_sqrt_square /= -/P solved.
- by rewrite mx_of_delta hermitized_self.
- by move=> env; exact: diamond_self_value.
- have := acc 0 opt0; rewrite subr0 => le.
  by rewrite normrM mulrC normr_nat ler_pM2l // ltr0n.
Qed.

(** C5. diamond_norm raises the ValueError for unequal shapes whenever
    the two shapes differ, and the ValueError for a non-square matrix
    when the common shape is not square; in both cases nothing has been
    created in the modelling layer (the log is unchanged), and the check
    of the shapes comes first. *)
Theorem diamond_norm_validation (choi_1 choi_2 : ndarray) (l : log C) :
  (shape choi_1 != shape choi_2 ->
     diamond_norm choi_1 choi_2 l = (Raise DimensionMismatch_choi, l))
  /\ (forall x y, shape choi_1 = [:: x; y] -> shape choi_2 = [:: x; y] ->
        x != y ->
        diamond_norm choi_1 choi_2 l = (Raise NotSquareError, l))
  /\ is_ValueError DimensionMismatch_choi
  /\ is_ValueError NotSquareError.
Proof.
split=> [ne|]; first by rewrite /diamond_norm ne.
split=> // x y s1 s2 ne.
by rewrite /diamond_norm s1 s2 eqxx /= ne.
Qed.


End DiamondTheorems.

Section ExclusionClaims.

Variable C : numClosedFieldType.
Variable picos_solve : string -> problem C -> result (solution C).

Local Notation ndarray := (ndarray C).
Local Notation smx := (smx C).
Local Notation state_exclusion := (state_exclusion picos_solve).

(** C6. When some vector of a non-empty ensemble has a shape other than
    that of the first one, state_exclusion raises its ValueError before
    anything is created in the modelling layer (the log is unchanged). *)
Theorem state_exclusion_validation (vectors : seq ndarray)
  (probs : option (seq C)) (solver primal_dual : string) (l : log C) v0 rest :
  vectors = v0 :: rest ->
  ~~ all (fun v => shape v == shape v0) vectors ->
  state_exclusion vectors probs solver primal_dual l
  = (Raise DimensionMismatch_vectors, l)
  /\ is_ValueError DimensionMismatch_vectors.
Proof.
move=> eqv bad; split=> //.
rewrite /state_exclusion /bind (same_shape_run _ eqv) all_map /=.
by rewrite (negbTE bad) eqv.
Qed.


(** C4. In dual mode, on n column vectors v_i of length d with one
    probability each, state_exclusion hands picos the programme over one
    Hermitian d x d variable Y with the n constraints Y below
    p_i v_i v_i^H, maximising Tr(Y), and returns, next to the value of
    the solution, the dual values of these n constraints in order. *)
Theorem state_exclusion_dual_programme (vectors : seq ndarray)
  (probs : seq C) (solver primal_dual : string) (l : log C) d v0 rest :
  vectors = v0 :: rest -> columns d vectors ->
  size probs = size vectors -> primal_dual <> "primal"%string ->
  let n := size vectors in
  let P := dual_problem vectors probs d in
  [/\ state_exclusion vectors (Some probs) solver primal_dual l
      = (dual_result vectors (picos_solve solver P),
         l ++ dual_events vectors probs d),
      p_constraints P
      = [seq CLoewnerLe (Var (Yvar d))
               (Const (outer (nth 0 probs i) (nth (nd0 C) vectors i) d))
        | i <- iota 0 n]
      /\ p_objective P = Some (Maximize, Trace (Var (Yvar d))),
      forall env, feasible P env
        <-> exists2 Y : 'M[C]_d, env Name_Y = Smx Y
              & hermitian Y
                /\ forall i, (i < n)%N -> psd (weighted vectors probs d i - Y),
      forall env (Y : 'M[C]_d), env Name_Y = Smx Y ->
        objective_value P env = Some (\tr Y)
    & forall sol, picos_solve solver P = Return sol ->
        (state_exclusion vectors (Some probs) solver primal_dual l).1
        = Return (value sol, [seq OpValue (duals sol k) | k <- iota 0 n])].
Proof.
move=> ev cols sp /eqb_neq ne n P.
have run : state_exclusion vectors (Some probs) solver primal_dual l
           = (dual_result vectors (picos_solve solver P),
              l ++ dual_events vectors probs d).
  rewrite (state_exclusion_run _ _ _ _ _ ev cols) ne.
  by rewrite (min_error_dual_run _ _ _ ev cols) // sp.
split=> //.
- exact: dual_feasibleP.
- by move=> env Y eY; rewrite (@dual_objective _ vectors probs d env Y eY).
- by move=> sol solved; rewrite run solved.
Qed.

(** C2. On an ensemble of n column vectors with a valid probability
    vector, the primal mode asks for the minimum of
    sum_i <p_i v_i v_i^H, M_i> over Hermitian positive semidefinite M_i
    summing to the identity, the dual mode for the maximum of Tr(Y) over
    Hermitian Y below every p_i v_i v_i^H; the two optimal values are
    equal, so the values the two modes return differ by at most twice
    the tolerance of the solver. *)
Theorem state_exclusion_primal_dual_agree (vectors : seq ndarray)
  (probs : seq C) (solver : string) (l : log C) d v0 rest
  (sol_p sol_d : solution C) (tol : C) :
  vectors = v0 :: rest -> columns d vectors ->
  valid_probs (size vectors) probs ->
  let n := size vectors in
  let A := weighted vectors probs d in
  let Pp := primal_problem vectors probs d in
  let Pd := dual_problem vectors probs d in
  picos_solve solver Pp = Return sol_p ->
  picos_solve solver Pd = Return sol_d ->
  accurate tol Pp sol_p -> accurate tol Pd sol_d ->
  [/\ (state_exclusion vectors (Some probs) solver "primal" l).1
      = Return (value sol_p, [seq OpVariable C m | m <- measurement_vars d n])
      /\ (state_exclusion vectors (Some probs) solver "dual" l).1
         = Return (value sol_d, [seq OpValue (duals sol_d k) | k <- iota 0 n]),
      forall a, optimal_value Pp a <-> exclusion_primal_optimum n A a,
      forall b, optimal_value Pd b <-> exclusion_dual_optimum n A b,
      forall a b, optimal_value Pp a -> optimal_value Pd b -> a = b
    & `|value sol_p - value sol_d| <= 2%:R * tol].
Proof.
move=> ev cols vp n A Pp Pd solp sold [a opta erra] [b optb errb].
have n0 : (0 < size vectors)%N by rewrite ev.
have sp : (size vectors <= size probs)%N.
  by case/and3P: vp => /eqP ->.
have gap : forall a b, optimal_value Pp a -> optimal_value Pd b -> a = b.
  by move=> a' b'; exact: exclusion_no_gap n0 vp.
split=> //.
- split.
    rewrite (state_exclusion_run _ _ _ _ _ ev cols) /=.
    by rewrite (min_error_primal_run _ _ _ ev cols) //= -/Pp solp.
  rewrite (state_exclusion_run _ _ _ _ _ ev cols) /=.
  by rewrite (min_error_dual_run _ _ _ ev cols) //= -/Pd sold.
- by move=> a'; exact: primal_optimal_iff.
- by move=> b'; exact: dual_optimal_iff.
- have e := gap a b opta optb.
  have -> : value sol_p - value sol_d
            = (value sol_p - a) + (b - value sol_d).
    by rewrite e addrA subrK.
  apply: le_trans (ler_normD _ _) _.
  rewrite mulr2n mulrDl mul1r lerD //.
  by rewrite distrC.
Qed.

End ExclusionClaims.

Section DefaultProbs.

Variable C : numClosedFieldType.
Variable picos_solve : string -> problem C -> result (solution C).

Local Notation state_exclusion := (state_exclusion picos_solve).

(** C3, evaluated on two Bell vectors without probabilities: the default
    distribution has four entries 1/4, one per coordinate of the first
    vector, where the ensemble has two members; the dual programme is
    built with the weights 1/4. *)
Theorem state_exclusion_default_probs_by_dimension (solver : string)
  (l : log C) :
  let vectors := [:: bell C 0; bell C 1] in
  let used := nseq 4 (1 / 4%:R : C) in
  [/\ first_dim vectors = Return 4%N /\ uniform C 4 = Return used,
      state_exclusion vectors None solver "dual" l
      = _min_error_dual picos_solve vectors used solver l,
      state_exclusion vectors None solver "dual" l
      = (dual_result vectors (picos_solve solver (dual_problem vectors used 4)),
         l ++ dual_events vectors used 4)
    & size used = 4%N /\ size vectors = 2%N
      /\ used <> nseq (size vectors) (1 / (size vectors)%:R)].
Proof.
move=> vectors used.
have ev : vectors = bell C 0 :: [:: bell C 1] by [].
have cols : columns 4 vectors by [].
have run : state_exclusion vectors None solver "dual" l
           = _min_error_dual picos_solve vectors used solver l.
  by rewrite (state_exclusion_run _ _ _ _ _ ev cols).
split=> //.
by rewrite run (min_error_dual_run _ _ _ ev cols).
Qed.

End DefaultProbs.

Section RealignmentClaim.

Variable C : numClosedFieldType.
Variable swap : ndarray C -> seq nat -> dims -> bool -> result (ndarray C).
Variable partial_transpose : ndarray C -> nat -> dims -> result (ndarray C).

Local Notation realignment := (realignment swap partial_transpose).

(** C10. For an int dim other than 0, realignment raises
    ValueError("InvalidDim:") when the divisibility test trips (as it does
    when dim does not divide the row count, for rows * |dim| <= 2^51) and
    otherwise (as when dim divides a positive row count) computes what it
    computes for the partition [[1], [4]]: the result does not depend on
    dim. *)
Theorem realignment_int_dim_overwritten (input_mat : ndarray C) (dim : int)
  (rows : nat) (rest : seq nat) :
  shape input_mat = rows :: rest -> dim != 0 ->
  [/\ invalid_dim rows dim ->
        realignment input_mat (DimInt dim) = Raise InvalidDim
        /\ is_ValueError InvalidDim,
      ~~ (dim %| rows%:Z)%Z -> (rows * `|dim| <= expn 2 51)%N ->
        realignment input_mat (DimInt dim) = Raise InvalidDim,
      (dim %| rows%:Z)%Z -> (0 < rows)%N -> ~~ invalid_dim rows dim
    & ~~ invalid_dim rows dim ->
        realignment input_mat (DimInt dim)
        = realignment input_mat (DimArray [:: [:: 1]; [:: 4%:R]])
        /\ realignment input_mat (DimInt dim)
           = realignment_1_4 swap partial_transpose input_mat].
Proof.
move=> sh nz; split.
- by move=> bad; rewrite (realignment_int _ _ sh nz) bad.
- move=> nd bound; rewrite (realignment_int _ _ sh nz).
  by rewrite (invalid_dim_nondivisor nz nd bound).
- exact: valid_dim_divides.
- by move=> ok; rewrite (realignment_int _ _ sh nz) (negbTE ok).
Qed.

End RealignmentClaim.

(* --------------------------------------------------------------------- *)
(* Claims at concrete inputs                                             *)
(* --------------------------------------------------------------------- *)

Section UnitEnsemble.

Local Notation A := (weighted scalar_state [:: 1] 1).

Lemma unit_weight_trace : \tr (A 0%N) = 1.
Proof.
rewrite /weighted /= scale1r trace_mx11 mxE big_ord1 !mxE /=.
by rewrite mul1r rmorph1.
Qed.

Lemma unit_primal_value (M : nat -> 'M[algC]_1) :
  primal_feasible 1 M -> primal_value 1 A M = 1.
Proof.
case=> _; rewrite big_ord1 /primal_value big_ord1 => ->.
by rewrite trmx1 map_mx1 mul1mx unit_weight_trace.
Qed.

Lemma unit_primal_feasible : primal_feasible 1 (fun=> 1%:M : 'M[algC]_1).
Proof.
split=> [i _|]; last by rewrite big_ord1.
by split; [exact: hermitian1 | exact: psd_scalar].
Qed.

Lemma unit_primal_optimal :
  optimal_value (primal_problem scalar_state [:: 1] 1) 1.
Proof.
apply/primal_optimal_iff => //.
exists (fun=> 1%:M); split; first exact: unit_primal_feasible.
  exact/unit_primal_value/unit_primal_feasible.
by move=> M' /unit_primal_value ->.
Qed.

Lemma unit_dual_optimal :
  optimal_value (dual_problem scalar_state [:: 1] 1) 1.
Proof.
have hA i : (i < 1)%N -> hermitian (A i).
  by move=> _; apply: (@hermitian_weighted _ _ _ _ 1); rewrite /valid_probs /= big_seq1 !eqxx ler01.
apply/dual_optimal_iff.
exists (A 0%N); split.
- split=> [|i]; first exact: hA.
  by rewrite ltnS leqn0 => /eqP ->; rewrite subrr; exact: psd0.
- exact: unit_weight_trace.
- move=> Y' fY'.
  rewrite -(unit_primal_value unit_primal_feasible).
  exact: (weak_duality hA unit_primal_feasible fY').
Qed.

End UnitEnsemble.

Lemma diamond_norm_watrous_sdp_witness :
  exists delta_choi : ndarray algC,
    diamond_norm zero_solver (ones algC [:: 1; 1]%N) (ones algC [:: 1; 1]%N)
                 [::]
    = (doubled (zero_solver (diamond_problem 1 (1 * 1) delta_choi)),
       [::] ++ diamond_events 1 (1 * 1) delta_choi).
Proof.
have [delta [run _ _ _ _]] :=
  @diamond_norm_watrous_sdp algC zero_solver (ones algC [:: 1; 1]%N)
    (ones algC [:: 1; 1]%N) 1 [::] erefl erefl.
by exists delta.
Defined.

Lemma diamond_norm_self_zero_witness :
  (diamond_norm zero_solver (ones algC [:: 1; 1]%N) (ones algC [:: 1; 1]%N)
                [::]).1
  = Return (0 * 2%:R)
  /\ `|(0 : algC) * 2%:R| <= 2%:R * 0.
Proof.
have acc v :
  optimal_value
    (diamond_problem 1 (1 * 1)
       (delta_of (ones algC [:: 1; 1]%N) (ones algC [:: 1; 1]%N))) v ->
  `|0 - v| <= (0 : algC).
  move=> /(@diamond_self_unique _ 1 (ones algC [:: 1; 1]%N) _ erefl) ->.
  by rewrite subrr normr0.
have [run _ _ _ le] :=
  @diamond_norm_self_zero algC zero_solver (ones algC [:: 1; 1]%N) 1 [::]
    0 0 (ltn0Sn 0) erefl erefl acc.
by split.
Defined.

Lemma diamond_norm_validation_witness :
  diamond_norm zero_solver (ones algC [:: 4; 4]%N) (ones algC [:: 2; 2]%N)
               [::]
  = (Raise DimensionMismatch_choi, [::])
  /\ diamond_norm zero_solver (ones algC [:: 2; 3]%N)
                  (ones algC [:: 2; 3]%N) [::]
     = (Raise NotSquareError, [::]).
Proof.
have [mismatch _] :=
  @diamond_norm_validation algC zero_solver (ones algC [:: 4; 4]%N)
    (ones algC [:: 2; 2]%N) [::].
have [_ [square _]] :=
  @diamond_norm_validation algC zero_solver (ones algC [:: 2; 3]%N)
    (ones algC [:: 2; 3]%N) [::].
split; first exact: mismatch.
exact: (square 2%N 3%N erefl erefl).
Defined.


Lemma state_exclusion_validation_witness :
  state_exclusion unit_solver
    [:: ones algC [:: 2; 1]%N; ones algC [:: 4; 1]%N] None "cvxopt" "dual"
    [::]
  = (Raise DimensionMismatch_vectors, [::]).
Proof.
have [raised _] :=
  @state_exclusion_validation algC unit_solver
    [:: ones algC [:: 2; 1]%N; ones algC [:: 4; 1]%N] None "cvxopt" "dual"
    [::] _ _ erefl erefl.
exact: raised.
Defined.


Lemma state_exclusion_dual_programme_witness :
  (state_exclusion unit_solver scalar_state (Some [:: 1]) "cvxopt" "dual"
                   [::]).1
  = Return (value unit_solution,
            [seq OpValue (duals unit_solution k) | k <- iota 0 1]).
Proof.
have ne : "dual"%string <> "primal"%string by [].
have [_ _ _ _ ret] :=
  @state_exclusion_dual_programme algC unit_solver scalar_state [:: 1]
    "cvxopt" "dual" [::] 1 _ _ erefl erefl erefl ne.
exact: (ret unit_solution erefl).
Defined.

Lemma state_exclusion_primal_dual_agree_witness :
  `|value unit_solution - value unit_solution| <= 2%:R * (0 : algC).
Proof.
have vp : valid_probs (size scalar_state) [:: (1 : algC)].
  by rewrite /valid_probs /= big_seq1 !eqxx ler01.
have accp : accurate 0 (primal_problem scalar_state [:: 1] 1) unit_solution.
  by exists 1; [exact: unit_primal_optimal | rewrite /= subrr normr0].
have accd : accurate 0 (dual_problem scalar_state [:: 1] 1) unit_solution.
  by exists 1; [exact: unit_dual_optimal | rewrite /= subrr normr0].
have [_ _ _ _ le] :=
  @state_exclusion_primal_dual_agree algC unit_solver scalar_state [:: 1]
    "cvxopt" [::] 1 _ _ unit_solution unit_solution 0 erefl erefl vp
    erefl erefl accp accd.
exact: le.
Defined.

Lemma realignment_int_dim_overwritten_witness :
  realignment id_swap id_partial_transpose (ones algC [:: 4; 4]%N) (DimInt 2)
  = realignment_1_4 id_swap id_partial_transpose (ones algC [:: 4; 4]%N)
  /\ realignment id_swap id_partial_transpose (ones algC [:: 4; 4]%N)
       (DimInt 3)
     = Raise InvalidDim.
Proof.
have nz2 : (2 : int) != 0 by [].
have nz3 : (3 : int) != 0 by [].
have [_ _ ok same] :=
  @realignment_int_dim_overwritten algC id_swap id_partial_transpose
    (ones algC [:: 4; 4]%N) 2 4 [:: 4%N] erefl nz2.
have [_ bad _ _] :=
  @realignment_int_dim_overwritten algC id_swap id_partial_transpose
    (ones algC [:: 4; 4]%N) 3 4 [:: 4%N] erefl nz3.
have d2 : (2 %| (4%:Z))%Z by [].
have nd3 : ~~ (3 %| (4%:Z))%Z by [].
have small : (4 * `|3 : int| <= expn 2 51)%N.
  by apply: (@leq_trans (expn 2 4)) => //; rewrite leq_exp2l.
split; first by have [_ ->] := same (ok d2 (ltn0Sn 3)).
exact: bad nd3 small.
Defined.

(* ===================================================================== *)
(* Further properties of the three functions                              *)
(* ===================================================================== *)

(* --------------------------------------------------------------------- *)
(* state_exclusion: the ensemble and the probabilities                    *)
(* --------------------------------------------------------------------- *)

Section MoreComprehensions.

Variables (St E A B : Type).

Lemma comprehension_ext (b1 b2 : A -> py St B) (xs : seq A) :
  every (fun x => b1 x =1 b2 x) xs ->
  comprehension b1 xs =1 comprehension b2 xs.
Proof.
elim: xs => [|x xs IH] //= [hx hxs] l.
rewrite /bind hx; case: (b2 x l) => [[y|e] l'] //.
by rewrite IH.
Qed.

(* A comprehension whose body fails at x, after the items xs. *)
Lemma comprehension_fail (body : A -> py (seq E) B) (f : A -> B)
  (ev : A -> seq E) (xs : seq A) (x : A) (ys : seq A) (e : exn)
  (l : seq E) :
  every (fun x => forall l, body x l = (Return (f x), l ++ ev x)) xs ->
  (forall l, body x l = (Raise e, l)) ->
  comprehension body (xs ++ x :: ys) l
  = (Raise e, l ++ flatten [seq ev x | x <- xs]).
Proof.
move=> hxs hx; elim: xs l hxs => [|z zs IH] l /=.
  by rewrite /bind hx cats0.
by case=> hz hzs; rewrite /bind hz IH //= catA.
Qed.

Lemma getitem_take (xs : seq A) n i :
  (i < n)%N -> getitem (take n xs) i = getitem xs i.
Proof.
move=> lt; rewrite /getitem.
case: (ltnP i (size xs)) => [lts|ges]; last first.
  by rewrite !drop_oversize // size_take; case: ifP => // /ltnW /leq_trans ->.
have [x0 _] : exists x0 : A, True by case: xs lts => // x *; exists x.
rewrite (drop_nth x0 lts) (drop_nth x0) /= ?nth_take //.
by rewrite size_take; case: ifP.
Qed.

Lemma iota_split k n : (k < n)%N ->
  iota 0 n = iota 0 k ++ k :: iota k.+1 (n - k.+1).
Proof.
move=> lt; rewrite -[in LHS](subnKC lt) iotaD add0n.
by rewrite -[in LHS]addn1 iotaD add0n /= -catA !addn1.
Qed.

Lemma flatten_nils (xs : seq A) : flatten [seq ([::] : seq B) | _ <- xs] = [::].
Proof. by elim: xs. Qed.

Lemma every_zip_iota (P : nat * A -> Prop) (xs : seq A) m :
  (forall i x, (m <= i < m + size xs)%N -> P (i, x)) ->
  every P (zip (iota m (size xs)) xs).
Proof.
elim: xs m => [|x xs IH] m //= h; split.
  by apply: h; rewrite leqnn addnS ltnS leq_addr.
apply: IH => i y /andP[lo hi]; apply: h.
by rewrite (ltnW lo) addnS -addSn.
Qed.

End MoreComprehensions.

Section ExclusionEdges.

Variable C : numClosedFieldType.
Variable picos_solve : string -> problem C -> result (solution C).

Local Notation ndarray := (ndarray C).
Local Notation state_exclusion := (state_exclusion picos_solve).

Lemma no_solve_constraints (cs : seq (constr C)) :
  has (@is_solve C) [seq EvConstraint c | c <- cs] = false.
Proof. by elim: cs. Qed.

Lemma no_solve_variables (vs : seq variable) :
  has (@is_solve C) [seq EvVariable v | v <- vs] = false.
Proof. by elim: vs. Qed.

(* ----- fewer probabilities than vectors -------------------------------- *)

Lemma min_error_dual_short (vectors : seq ndarray) (probs : seq C)
  (solver : string) (l : log C) d v0 rest :
  vectors = v0 :: rest -> columns d vectors ->
  (size probs < size vectors)%N ->
  _min_error_dual picos_solve vectors probs solver l
  = (Raise IndexError,
     l ++ EvProblem :: EvVariable (Yvar d)
       :: [seq EvConstraint c
          | c <- take (size probs) (dual_constraints vectors probs d)]).
Proof.
move=> ev cols lt.
rewrite /_min_error_dual /bind (first_dim_column ev cols) /=.
rewrite zip_iota_nth (iota_split lt) map_cat /=.
pose f (iv : nat * ndarray) : constr C :=
  CLoewnerLe (Var (Yvar d)) (Const (outer (nth 0 probs iv.1) iv.2 d)).
rewrite (@comprehension_fail _ _ _ _ f (fun iv => [:: EvConstraint (f iv)])
           _ _ _ IndexError).
- apply/every_map_iota => i; rewrite add0n leq0n /= => lti l'.
  rewrite /bind /= (getitem_nth 0) //=.
  have ltn := ltn_trans lti lt.
  by rewrite (weighted_projector_column _ (columns_nth cols ltn)) /= cats1.
- by move=> l'; rewrite /bind /= getitem_out.
rewrite -!map_comp flatten_singletons /dual_constraints (iota_split lt).
rewrite -map_take take_size_cat ?size_iota // -map_comp.
by rewrite -!cats1 -!catA.
Qed.

Lemma min_error_primal_short (vectors : seq ndarray) (probs : seq C)
  (solver : string) (l : log C) d v0 rest :
  vectors = v0 :: rest -> columns d vectors ->
  (size probs < size vectors)%N ->
  _min_error_primal picos_solve vectors probs solver l
  = (Raise IndexError,
     l ++ EvProblem
       :: [seq EvVariable m | m <- measurement_vars d (size vectors)]
       ++ [seq EvConstraint c | c <- primal_constraints C (size vectors) d]).
Proof.
move=> ev cols lt.
rewrite /_min_error_primal /bind (first_dim_column ev cols) /=.
rewrite (@comprehension_run _ _ _ _ (Mvar d) (fun i => [:: EvVariable (Mvar d i)])).
  by apply/every_iota => i _ l'; rewrite /new_variable /bind /= cats1.
rewrite flatten_singletons -/(measurement_vars d (size vectors)).
rewrite (@comprehension_run _ _ _ _ (fun m => CPsd (Var m))
           (fun m => [:: EvConstraint (CPsd (Var m))])).
  by apply/every_map_iota => i _ l'; rewrite /new_constraint /bind /= cats1.
rewrite flatten_singletons /=.
rewrite [X in comprehension _ X _](iota_split lt).
rewrite (@comprehension_fail _ _ _ _
           (fun i => Inner (Const (outer (nth 0 probs i)
                                         (nth (nd0 C) vectors i) d))
                           (Var (Mvar d i)))
           (fun=> [::]) _ _ _ IndexError).
- apply/every_iota => i; rewrite add0n leq0n /= => lti l'.
  have ltn := ltn_trans lti lt.
  rewrite /bind /= (getitem_nth 0) //= (getitem_nth (nd0 C)) //=.
  rewrite (weighted_projector_column _ (columns_nth cols ltn)) /=.
  rewrite (getitem_nth (Mvar d 0)) ?size_map ?size_iota //.
  by rewrite (nth_map 0%N) ?size_iota // nth_iota // cats0.
- by move=> l'; rewrite /bind /= getitem_out.
rewrite flatten_nils cats0 /primal_constraints map_cat /=.
by rewrite /measurement_vars -!map_comp -!cats1 -!catA.
Qed.

Lemma short_probs_run (vectors : seq ndarray) (probs : seq C)
  (solver primal_dual : string) (l : log C) d v0 rest :
  vectors = v0 :: rest -> columns d vectors ->
  (size probs < size vectors)%N ->
  exists evs : seq (event C),
    (if String.eqb primal_dual "primal"
     then _min_error_primal picos_solve vectors probs solver l
     else _min_error_dual picos_solve vectors probs solver l)
    = (Raise IndexError, l ++ evs)
    /\ ~~ has (@is_solve C) evs.
Proof.
move=> ev cols lt; case: String.eqb.
  rewrite (min_error_primal_short _ _ ev cols lt).
  eexists; split; first by [].
  by rewrite /= has_cat no_solve_variables no_solve_constraints.
rewrite (min_error_dual_short _ _ ev cols lt).
eexists; split; first by [].
by rewrite /= no_solve_constraints.
Qed.

(* ----- more probabilities than vectors --------------------------------- *)

Lemma min_error_primal_take (vectors : seq ndarray) (probs : seq C)
  (solver : string) :
  _min_error_primal picos_solve vectors probs solver
  =1 _min_error_primal picos_solve vectors (take (size vectors) probs) solver.
Proof.
move=> l; rewrite /_min_error_primal /bind.
case: (lift (first_dim vectors) l) => [[dim|e] l1] //=.
case: (comprehension _ _ _) => [[ms|e] l2] //=.
case: (comprehension _ _ _) => [[cs|e] l3] //=.
rewrite (@comprehension_ext _ _ _ _
  (fun i =>
     bind (lift (getitem (take (size vectors) probs) i)) (fun p =>
     bind (lift (getitem vectors i)) (fun vector =>
     bind (lift (weighted_projector p vector)) (fun a =>
     bind (lift (getitem ms i)) (fun meas =>
     ret (Inner (Const a) (Var meas)))))))) //.
apply/every_iota => i; rewrite add0n /= => lt l'.
by rewrite /bind /= getitem_take.
Qed.

Lemma min_error_dual_take (vectors : seq ndarray) (probs : seq C)
  (solver : string) :
  _min_error_dual picos_solve vectors probs solver
  =1 _min_error_dual picos_solve vectors (take (size vectors) probs) solver.
Proof.
move=> l; rewrite /_min_error_dual /bind.
case: (lift (first_dim vectors) l) => [[dim|e] l1] //=.
rewrite (@comprehension_ext _ _ _ _
  (fun iv : nat * ndarray =>
     let (i, vector) := iv in
     bind (lift (getitem (take (size vectors) probs) i)) (fun p =>
     bind (lift (weighted_projector p vector)) (fun a =>
     new_constraint (CLoewnerLe (Var (Variable_ Name_Y (dim, dim) HermitianVar))
                                (Const a)))))) //.
apply: every_zip_iota => i x; rewrite add0n /= => lt l'.
by rewrite /bind /= getitem_take.
Qed.

(** X1. On an empty list of vectors state_exclusion raises IndexError
    (the check of the shapes passes, then vectors[0] fails), and nothing
    has been created in the modelling layer. *)
Theorem state_exclusion_empty (probs : option (seq C))
  (solver primal_dual : string) (l : log C) :
  state_exclusion [::] probs solver primal_dual l = (Raise IndexError, l).
Proof. by []. Qed.

(** X2. With fewer probabilities than column vectors, state_exclusion
    raises IndexError in either mode, and the solver has not been
    called. *)
Theorem state_exclusion_short_probs (vectors : seq ndarray) (probs : seq C)
  (solver primal_dual : string) (l : log C) d v0 rest :
  vectors = v0 :: rest -> columns d vectors -> (0 < d)%N ->
  (size probs < size vectors)%N ->
  exists evs : seq (event C),
    state_exclusion vectors (Some probs) solver primal_dual l
    = (Raise IndexError, l ++ evs)
    /\ ~~ has (@is_solve C) evs.
Proof.
move=> ev cols _ lt.
rewrite (state_exclusion_run _ _ _ _ _ ev cols).
exact: short_probs_run ev cols lt.
Qed.

(** X3. Probabilities beyond the number of vectors are never read:
    state_exclusion does the same with probs and with its first
    len(vectors) entries. *)
Theorem state_exclusion_surplus_probs (vectors : seq ndarray)
  (probs : seq C) (solver primal_dual : string) (l : log C) :
  state_exclusion vectors (Some probs) solver primal_dual l
  = state_exclusion vectors (Some (take (size vectors) probs)) solver
      primal_dual l.
Proof.
rewrite /state_exclusion /bind.
case: (comprehension _ _ _) => [[same|e] l1] //=.
case: (~~ _) => //; rewrite /lift /=.
case: (first_dim vectors) => [n|e] //.
case: String.eqb; first exact: min_error_primal_take.
exact: min_error_dual_take.
Qed.

(** X4. Without probabilities, on n column vectors of length d: for
    d = 0 the division 1 / n raises ZeroDivisionError and nothing is
    created; for n <= d state_exclusion does what it does with the n
    weights 1/d; for 0 < d < n it raises IndexError without calling the
    solver. *)
Theorem state_exclusion_default_probs (vectors : seq ndarray)
  (solver primal_dual : string) (l : log C) d v0 rest :
  vectors = v0 :: rest -> columns d vectors ->
  let n := size vectors in
  [/\ d = 0%N ->
        state_exclusion vectors None solver primal_dual l
        = (Raise ZeroDivisionError, l),
      (0 < d)%N -> (n <= d)%N ->
        state_exclusion vectors None solver primal_dual l
        = state_exclusion vectors (Some (nseq n (1 / d%:R))) solver
            primal_dual l
    & (0 < d < n)%N ->
        exists evs : seq (event C),
          state_exclusion vectors None solver primal_dual l
          = (Raise IndexError, l ++ evs)
          /\ ~~ has (@is_solve C) evs].
Proof.
move=> ev cols n; split.
- by move=> d0; rewrite (state_exclusion_run _ _ _ _ _ ev cols) d0.
- move=> d0 le; rewrite !(state_exclusion_run _ _ _ _ _ ev cols).
  rewrite /uniform (gtn_eqF d0) /=.
  case: String.eqb.
    by rewrite min_error_primal_take take_nseq.
  by rewrite min_error_dual_take take_nseq.
- case/andP=> d0 lt.
  rewrite (state_exclusion_run _ _ _ _ _ ev cols) /uniform (gtn_eqF d0) /=.
  by apply: short_probs_run ev cols _; rewrite size_nseq.
Qed.

(** X5. In primal mode, on n column vectors of length d > 0 with at
    least n probabilities, state_exclusion creates the Hermitian d x d
    variables M[0], ..., M[n-1], a constraint M[i] >> 0 for each and
    the constraint sum_i M[i] == I, hands picos the minimisation of
    sum_i <p_i v_i v_i^H, M[i]>, and returns the value of the solution
    with the variables themselves; an error of the solver is passed
    on. *)
Theorem state_exclusion_primal_programme (vectors : seq ndarray)
  (probs : seq C) (solver : string) (l : log C) d v0 rest :
  vectors = v0 :: rest -> columns d vectors -> (0 < d)%N ->
  (size vectors <= size probs)%N ->
  let n := size vectors in
  let P := primal_problem vectors probs d in
  [/\ state_exclusion vectors (Some probs) solver "primal" l
      = (primal_result vectors d (picos_solve solver P),
         l ++ primal_events vectors probs d),
      forall env, feasible P env
        <-> exists2 M : nat -> 'M[C]_d,
              (forall i, (i < n)%N -> env (Name_M i) = Smx (M i))
              & (forall i, (i < n)%N -> hermitian (M i) /\ psd (M i))
                /\ \sum_(i < n) M i = 1%:M,
      forall env (M : nat -> 'M[C]_d),
        (forall i, (i < n)%N -> env (Name_M i) = Smx (M i)) ->
        objective_value P env
        = Some (\sum_(i < n) \tr ((M i)^t* *m weighted vectors probs d i)),
      forall sol, picos_solve solver P = Return sol ->
        (state_exclusion vectors (Some probs) solver "primal" l).1
        = Return (value sol,
                  [seq OpVariable C m | m <- measurement_vars d n])
    & forall e, picos_solve solver P = Raise e ->
        (state_exclusion vectors (Some probs) solver "primal" l).1
        = Raise e].
Proof.
move=> ev cols _ sp n P.
have n0 : (0 < size vectors)%N by rewrite ev.
have run : state_exclusion vectors (Some probs) solver "primal" l
           = (primal_result vectors d (picos_solve solver P),
              l ++ primal_events vectors probs d).
  rewrite (state_exclusion_run _ _ _ _ _ ev cols) /=.
  by rewrite (min_error_primal_run _ _ _ ev cols).
split=> //.
- by move=> env; exact: primal_feasibleP.
- by move=> env M eM; rewrite (@primal_objective _ vectors probs d env M n0 eM).
- by move=> sol solved; rewrite run solved.
- by move=> e failed; rewrite run failed.
Qed.

End ExclusionEdges.

(* --------------------------------------------------------------------- *)
(* state_exclusion: the optimal value                                     *)
(* --------------------------------------------------------------------- *)

Section OptimalValues.

Variable C : numClosedFieldType.

Lemma optimal_value_unique (p : problem C) (v w : C) :
  optimal_value p v -> optimal_value p w -> v = w.
Proof.
rewrite /optimal_value; case: (p_objective p) => [[dir e]|] //.
case=> [[env1 f1 o1] b1] [[env2 f2 o2] b2].
have := b1 _ _ f2 o2; have := b2 _ _ f1 o1.
by case: dir {b1 b2} => /= h1 h2; apply/le_anti; rewrite h1 h2.
Qed.

Lemma accurate_at (tol v : C) (p : problem C) (sol : solution C) :
  optimal_value p v -> accurate tol p sol -> `|value sol - v| <= tol.
Proof.
by move=> ov [w ow le]; rewrite (optimal_value_unique ov ow).
Qed.

End OptimalValues.

Section ExclusionValue.

Variable C : numClosedFieldType.

Local Notation ndarray := (ndarray C).
Local Notation form A x := ((x *m A *m x^t*) 0 0).
Local Notation always := (always C).

Variables (vectors : seq ndarray) (probs : seq C) (d : nat).
Hypothesis vp : valid_probs (size vectors) probs.

Local Notation n := (size vectors).
Local Notation A := (weighted vectors probs d).

Lemma probs_ge0 i : 0 <= nth 0 probs i.
Proof.
case/and3P: vp => _ /all_nthP h _.
by case: (ltnP i (size probs)) => [/h ->//|le]; rewrite nth_default.
Qed.

Lemma psd_weighted i : psd (A i).
Proof.
apply: psdZ; first exact: probs_ge0.
apply: form_ge0_psd => y.
set c := column _ d.
have -> : c *m c^t* = (c^t*)^t* *m c^t* by rewrite trmxC_K.
by rewrite form_outer exprn_ge0.
Qed.

Lemma hermitian_A i : (i < n)%N -> hermitian (A i).
Proof. by move=> _; exact: hermitian_weighted vp. Qed.

Lemma primal_value_ge0 (M : nat -> 'M[C]_d) :
  primal_feasible n M -> 0 <= primal_value n A M.
Proof.
move=> fM; rewrite (primal_valueE A fM); case: fM => hM _.
apply: sumr_ge0 => i _; have [h p] := hM i (ltn_ord i).
apply: tr_psd_mul_ge0 => //; last exact: psd_weighted.
exact: hermitian_weighted vp.
Qed.

Lemma always_feasible j : (j < n)%N -> primal_feasible n (always d j).
Proof.
move=> jn; split=> [i _|]; last by rewrite /always (sum_at (fun=> 1%:M)).
rewrite /always; case: ifP => _.
  by split; [exact: hermitian1 | exact: psd_scalar].
by split; [rewrite /hermitian trmx0 map_mx0 | exact: psd0].
Qed.

Lemma always_value j : (j < n)%N ->
  primal_value n A (always d j) = \tr (A j).
Proof.
move=> jn; rewrite /primal_value.
have -> : \sum_(i < n) \tr ((always d j i)^t* *m A i)
          = \sum_(i < n) (if (i : nat) == j then \tr (A i) else 0).
  apply: eq_bigr => i _; rewrite /always; case: ifP => _.
    by rewrite trmx1 map_mx1 mul1mx.
  by rewrite trmx0 map_mx0 mul0mx mxtrace0.
by rewrite (sum_at (fun i => \tr (A i))).
Qed.

Lemma zero_dual_feasible : dual_feasible n A (0 : 'M[C]_d).
Proof.
split=> [|i _]; first by rewrite /hermitian trmx0 map_mx0.
by rewrite subr0; exact: psd_weighted.
Qed.

Lemma primal_optimum_bounds a j : (0 < n)%N -> (j < n)%N ->
  optimal_value (primal_problem vectors probs d) a -> 0 <= a <= \tr (A j).
Proof.
move=> n0 jn /(primal_optimalP n0) [M [fM <- best]].
rewrite primal_value_ge0 //= -(always_value jn).
exact/best/always_feasible.
Qed.

Lemma dual_optimum_bounds b j : (j < n)%N ->
  optimal_value (dual_problem vectors probs d) b -> 0 <= b <= \tr (A j).
Proof.
move=> jn /dual_optimalP [Y [fY <- best]].
have := best _ zero_dual_feasible; rewrite {1}/dual_value mxtrace0 => ->.
rewrite -(always_value jn) /=.
exact: (weak_duality hermitian_A (always_feasible jn) fY).
Qed.

Lemma inner_conj (u v : ndarray) : inner v u d = (inner u v d)^*.
Proof. by rewrite /inner -entry_trmxC trmxC_mul trmxC_K. Qed.

Lemma form_weighted i (x : 'rV[C]_d) :
  form (A i) x
  = nth 0 probs i * `|(x *m column (nth (nd0 C) vectors i) d) 0 0| ^+ 2.
Proof.
rewrite formZ; congr (_ * _); set c := column _ d.
have -> : c *m c^t* = (c^t*)^t* *m c^t* by rewrite trmxC_K.
by rewrite form_outer trmxC_K.
Qed.

Lemma tr_weighted i :
  \tr (A i) = nth 0 probs i * inner (nth (nd0 C) vectors i)
                                    (nth (nd0 C) vectors i) d.
Proof. by rewrite /weighted mxtraceZ mxtrace_mulC trace_mx11. Qed.

(* ----- two orthogonal states ------------------------------------------- *)

Section Pair.

Variables (i j : nat).
Hypotheses (lti : (i < n)%N) (ltj : (j < n)%N).
Hypothesis orth :
  inner (nth (nd0 C) vectors i) (nth (nd0 C) vectors j) d = 0.

Local Notation x := ((column (nth (nd0 C) vectors j) d)^t*).

Lemma psd_coproj : psd (1%:M - proj x).
Proof.
have -> : 1%:M - proj x = nudge x 1 *m 1%:M *m (nudge x 1)^t*.
  rewrite mulmx1 nudge_sq ?real1 //.
  by have -> : 1 * (2%:R - 1) = 1 :> C; [field | rewrite scale1r].
by apply: psd_congr; apply: psd_scalar; rewrite ler01.
Qed.

Lemma excluding_feasible : primal_feasible n (excluding i j x).
Proof.
split=> [k _|].
  split.
    apply: hermitianD; case: ifP => _; rewrite /hermitian ?trmx0 ?map_mx0 //.
      exact: hermitian_proj.
    by apply: hermitianD; [exact: hermitian1 | exact/hermitianN/hermitian_proj].
  apply: psdD; case: ifP => _; try exact: psd0.
    exact: psd_proj.
  exact: psd_coproj.
rewrite big_split /= (sum_at (fun=> proj x)) // (sum_at (fun=> 1%:M - proj x)) //.
by rewrite addrC subrK.
Qed.

Lemma sqnorm_inner :
  sqnorm x = inner (nth (nd0 C) vectors j) (nth (nd0 C) vectors j) d.
Proof. by rewrite /sqnorm /inner trmxC_K. Qed.

Lemma excluding_value : primal_value n A (excluding i j x) = 0.
Proof.
rewrite (primal_valueE A excluding_feasible).
have -> : \sum_(k < n) \tr (excluding i j x k *m A k)
          = \sum_(k < n) (if (k : nat) == i then \tr (proj x *m A k) else 0)
            + \sum_(k < n) (if (k : nat) == j
                            then \tr ((1%:M - proj x) *m A k) else 0).
  rewrite -big_split /=; apply: eq_bigr => k _.
  rewrite /excluding mulmxDl raddfD /=.
  by congr (_ + _); case: ifP => _; rewrite ?mul0mx ?mxtrace0.
rewrite (sum_at (fun k => \tr (proj x *m A k))) //.
rewrite (sum_at (fun k => \tr ((1%:M - proj x) *m A k))) //.
rewrite mulmxBl mul1mx raddfB /= !tr_proj_mul !form_weighted.
have -> : (x *m column (nth (nd0 C) vectors i) d) 0 0 = 0.
  by rewrite -/(inner _ _ d) inner_conj orth conjC0.
rewrite normr0 expr0n /= !mulr0 add0r tr_weighted.
rewrite -/(inner _ _ d) -sqnorm_inner.
have s0 := sqnorm_ge0 x.
rewrite ger0_norm //.
have [->|nz] := eqVneq (sqnorm x) 0; first by rewrite expr0n /= !mulr0 subrr.
by field.
Qed.

Lemma orthogonal_primal_optimum :
  optimal_value (primal_problem vectors probs d) 0.
Proof.
have n0 : (0 < n)%N by exact: leq_ltn_trans lti.
apply/(primal_optimal_iff _ _ _ n0).
exists (excluding i j x); split.
- exact: excluding_feasible.
- exact: excluding_value.
- exact: primal_value_ge0.
Qed.

Lemma orthogonal_dual_optimum :
  optimal_value (dual_problem vectors probs d) 0.
Proof.
apply/dual_optimal_iff.
exists 0; split; first exact: zero_dual_feasible.
  by rewrite /dual_value mxtrace0.
move=> Y' fY'; rewrite -excluding_value.
exact: (weak_duality hermitian_A excluding_feasible fY').
Qed.

End Pair.

End ExclusionValue.

(* ----- copies of one state ------------------------------------------------ *)

Section Identical.

Variable C : numClosedFieldType.

Local Notation ndarray := (ndarray C).
Local Notation always := (always C).

Variables (vectors : seq ndarray) (probs : seq C) (d : nat).
Hypothesis vp : valid_probs (size vectors) probs.

Local Notation n := (size vectors).
Local Notation A := (weighted vectors probs d).

Variables (v : ndarray) (j : nat).
Hypothesis ltj : (j < n)%N.
Hypothesis same : forall i, (i < n)%N ->
  column (nth (nd0 C) vectors i) d = column v d.
Hypothesis least : forall i, (i < n)%N -> nth 0 probs j <= nth 0 probs i.

Local Notation V := (column v d *m (column v d)^t*).

Lemma identical_weighted i : (i < n)%N -> A i = nth 0 probs i *: V.
Proof. by move=> lt; rewrite /weighted same. Qed.

Lemma hermitian_V : hermitian V.
Proof. by rewrite /hermitian trmxC_mul trmxC_K. Qed.

Lemma psd_V : psd V.
Proof.
apply: form_ge0_psd => y; set c := column _ d.
have -> : c *m c^t* = (c^t*)^t* *m c^t* by rewrite trmxC_K.
by rewrite form_outer exprn_ge0.
Qed.

Lemma tr_V : \tr V = inner v v d.
Proof. by rewrite mxtrace_mulC trace_mx11. Qed.

Lemma identical_value_ge (M : nat -> 'M[C]_d) :
  primal_feasible n M ->
  nth 0 probs j * inner v v d <= primal_value n A M.
Proof.
move=> fM; rewrite (primal_valueE A fM); case: fM => hM sM.
have -> : nth 0 probs j * inner v v d
          = \sum_(i < n) nth 0 probs j * \tr (M i *m V).
  by rewrite -mulr_sumr -raddf_sum -mulmx_suml sM mul1mx /= tr_V.
apply: ler_sum => i _; rewrite identical_weighted //.
rewrite -scalemxAr mxtraceZ; have [h p] := hM i (ltn_ord i).
apply: ler_wpM2r; last exact: least.
exact: (tr_psd_mul_ge0 h p hermitian_V psd_V).
Qed.

Lemma identical_primal_optimum :
  optimal_value (primal_problem vectors probs d)
                (nth 0 probs j * inner v v d).
Proof.
have n0 : (0 < n)%N by exact: leq_ltn_trans ltj.
apply/(primal_optimal_iff _ _ _ n0).
exists (always d j); split.
- exact: always_feasible.
- by rewrite always_value // identical_weighted // mxtraceZ tr_V.
- exact: identical_value_ge.
Qed.

Lemma identical_dual_optimum :
  optimal_value (dual_problem vectors probs d)
                (nth 0 probs j * inner v v d).
Proof.
apply/dual_optimal_iff.
exists (nth 0 probs j *: V); split.
- split=> [|i lt].
    by apply: hermitianZ; [exact: valid_probs_real vp | exact: hermitian_V].
  rewrite identical_weighted // -scalerBl.
  by apply: psdZ; [rewrite subr_ge0; exact: least | exact: psd_V].
- by rewrite /dual_value mxtraceZ tr_V.
- move=> Y' fY'.
  have <- : primal_value n A (always d j) = nth 0 probs j * inner v v d.
    by rewrite always_value // identical_weighted // mxtraceZ tr_V.
  exact: (weak_duality (hermitian_A d vp) (always_feasible d ltj) fY').
Qed.

End Identical.

Section ExclusionValueTheorems.

Variable C : numClosedFieldType.
Variable picos_solve : string -> problem C -> result (solution C).

Local Notation ndarray := (ndarray C).
Local Notation nd0 := (nd0 C).
Local Notation state_exclusion := (state_exclusion picos_solve).

Lemma state_exclusion_returns (vectors : seq ndarray) (probs : seq C)
  (solver primal_dual : string) (l : log C) d v0 rest sol :
  vectors = v0 :: rest -> columns d vectors ->
  (size vectors <= size probs)%N ->
  picos_solve solver (mode_problem primal_dual vectors probs d) = Return sol ->
  exists ops,
    (state_exclusion vectors (Some probs) solver primal_dual l).1
    = Return (value sol, ops).
Proof.
move=> ev cols sp; rewrite /mode_problem.
rewrite (state_exclusion_run _ _ _ _ _ ev cols).
case: String.eqb => solved.
  rewrite (min_error_primal_run _ _ _ ev cols) //= solved /=.
  by eexists.
rewrite (min_error_dual_run _ _ _ ev cols) //= solved /=.
by eexists.
Qed.

Lemma valid_probs_size (vectors : seq ndarray) (probs : seq C) :
  valid_probs (size vectors) probs -> (size vectors <= size probs)%N.
Proof. by case/and3P=> /eqP ->. Qed.

(** X6. On column vectors with valid probabilities, the optimal value
    of the programme of either mode lies between 0 and p_j <v_j, v_j>
    for every state j (for unit vectors: between 0 and the least
    probability), and a solver that is right up to tol makes
    state_exclusion return a value within tol of that interval. *)
Theorem state_exclusion_value_bounds (vectors : seq ndarray)
  (probs : seq C) (solver primal_dual : string) (l : log C) d v0 rest
  (j : nat) (sol : solution C) (tol : C) :
  vectors = v0 :: rest -> columns d vectors -> (0 < d)%N ->
  valid_probs (size vectors) probs -> (j < size vectors)%N ->
  let P := mode_problem primal_dual vectors probs d in
  let bound :=
    nth 0 probs j * inner (nth nd0 vectors j) (nth nd0 vectors j) d in
  picos_solve solver P = Return sol -> accurate tol P sol ->
  (forall a, optimal_value P a -> 0 <= a <= bound)
  /\ exists ops a,
       [/\ (state_exclusion vectors (Some probs) solver primal_dual l).1
           = Return (value sol, ops),
           0 <= a <= bound
         & `|value sol - a| <= tol].
Proof.
move=> ev cols _ vp jn P bound solved acc.
have n0 : (0 < size vectors)%N by exact: leq_ltn_trans jn.
have bounds a : optimal_value P a -> 0 <= a <= bound.
  rewrite /P /mode_problem /bound -(tr_weighted vectors probs d j).
  case: String.eqb; first exact: primal_optimum_bounds.
  exact: dual_optimum_bounds.
split=> //.
have [ops run] :=
  state_exclusion_returns l ev cols (valid_probs_size vp) solved.
case: acc => a opt err.
by exists ops, a; split=> //; exact: bounds.
Qed.

(** X7. On column vectors with valid probabilities, when the states i
    and j of the ensemble are orthogonal the optimal value of the
    programme of either mode is 0 (one of the two can always be
    excluded), and a solver that is right up to tol makes
    state_exclusion return a value within tol of 0. *)
Theorem state_exclusion_orthogonal_pair (vectors : seq ndarray)
  (probs : seq C) (solver primal_dual : string) (l : log C) d v0 rest
  (i j : nat) (sol : solution C) (tol : C) :
  vectors = v0 :: rest -> columns d vectors -> (0 < d)%N ->
  valid_probs (size vectors) probs ->
  (i < size vectors)%N -> (j < size vectors)%N ->
  inner (nth nd0 vectors i) (nth nd0 vectors j) d = 0 ->
  let P := mode_problem primal_dual vectors probs d in
  picos_solve solver P = Return sol -> accurate tol P sol ->
  [/\ optimal_value (primal_problem vectors probs d) 0,
      optimal_value (dual_problem vectors probs d) 0
    & exists2 ops,
        (state_exclusion vectors (Some probs) solver primal_dual l).1
        = Return (value sol, ops)
        & `|value sol| <= tol].
Proof.
move=> ev cols _ vp lti ltj orth P solved acc.
have op := orthogonal_primal_optimum vp lti ltj orth.
have od := orthogonal_dual_optimum vp lti ltj orth.
split=> //.
have [ops run] :=
  state_exclusion_returns l ev cols (valid_probs_size vp) solved.
exists ops => //.
have o0 : optimal_value P 0 by rewrite /P /mode_problem; case: String.eqb.
by have := accurate_at o0 acc; rewrite subr0.
Qed.

(** X8. For n copies of one column vector v with valid probabilities,
    the optimal value of the programme of either mode is p_j <v, v> for
    a least probability p_j (for a single state: <v, v>, the state
    cannot be excluded), and a solver that is right up to tol makes
    state_exclusion return a value within tol of it. *)
Theorem state_exclusion_identical_states (v : ndarray) (m d : nat)
  (probs : seq C) (solver primal_dual : string) (l : log C) (j : nat)
  (sol : solution C) (tol : C) :
  shape v = [:: d; 1%N] -> (0 < d)%N ->
  let vectors := nseq m.+1 v in
  valid_probs m.+1 probs -> (j < m.+1)%N ->
  (forall i, (i < m.+1)%N -> nth 0 probs j <= nth 0 probs i) ->
  let P := mode_problem primal_dual vectors probs d in
  let least := nth 0 probs j * inner v v d in
  picos_solve solver P = Return sol -> accurate tol P sol ->
  [/\ optimal_value (primal_problem vectors probs d) least,
      optimal_value (dual_problem vectors probs d) least
    & exists2 ops,
        (state_exclusion vectors (Some probs) solver primal_dual l).1
        = Return (value sol, ops)
        & `|value sol - least| <= tol].
Proof.
move=> sv _ vectors; rewrite -(size_nseq m.+1 v) -/vectors.
move=> vp ltj least P lst solved acc.
have cols : columns d vectors.
  by apply/(all_nthP nd0) => i; rewrite size_nseq nth_nseq => ->; rewrite sv.
have same i : (i < size vectors)%N ->
    column (nth nd0 vectors i) d = column v d.
  by rewrite size_nseq nth_nseq => ->.
have op := identical_primal_optimum ltj same least.
have od := identical_dual_optimum vp ltj same least.
split=> //.
have ev : vectors = v :: nseq m v by [].
have [ops run] :=
  state_exclusion_returns l ev cols (valid_probs_size vp) solved.
exists ops => //.
apply: accurate_at acc.
by rewrite /P /mode_problem; case: String.eqb.
Qed.

End ExclusionValueTheorems.

(* --------------------------------------------------------------------- *)
(* diamond_norm: shapes, sign, scaling and the bound for channels         *)
(* --------------------------------------------------------------------- *)

Section DiamondValue.

Variable C : numClosedFieldType.

Local Notation ndarray := (ndarray C).

Lemma delta_shape (choi_1 choi_2 : ndarray) side :
  shape choi_1 = [:: side; side] ->
  shape (delta_of choi_1 choi_2) = [:: side; side].
Proof. by move=> s1; rewrite /delta_of s1. Qed.

Lemma diamond_optimum_ge0 d (delta : ndarray) v : (0 < d)%N ->
  shape delta = [:: (d * d)%N; (d * d)%N] ->
  optimal_value (diamond_problem d (d * d) delta) v -> 0 <= v.
Proof.
move=> d0 sd [_ best].
have f : feasible (diamond_problem d (d * d) delta) (centre C d).
  apply/diamond_feasible.
  by exists (d%:R^-1)%:M, 0; split=> //; apply: centre_feasible.
have := best _ 0 f; rewrite (@diamond_objective_value _ d delta _ 0 sd erefl).
rewrite /watrous_objective mulmx0 mxtrace0 raddf0 /=.
exact.
Qed.

(* ----- scaling ---------------------------------------------------------- *)

Lemma watrous_objectiveZ n (c : C) (Delta W : 'M[C]_n) :
  c \is Num.real ->
  watrous_objective (c *: Delta) W = c * watrous_objective Delta W.
Proof.
move=> rc; rewrite /watrous_objective linearZ /= map_mxZ /= conj_Creal //.
by rewrite -scalemxAl mxtraceZ ReMl.
Qed.

Lemma hermitizedZ n (c : C) (J1 J2 : 'M[C]_n) :
  c \is Num.real ->
  hermitized (c *: J1) (c *: J2) = c *: hermitized J1 J2.
Proof.
move=> rc; rewrite /hermitized -scalerBr linearZ /= map_mxZ /= conj_Creal //.
by rewrite -scalerDr !scalerA mulrC.
Qed.

Lemma mx_of_scale (c : C) (a : ndarray) r k :
  mx_of (nd_scale c a) r k = c *: mx_of a r k.
Proof. by apply/matrixP => i j; rewrite !mxE. Qed.

Lemma watrous_optimumZ d (c v : C) (Delta : 'M[C]_(d * d)) :
  0 <= c -> watrous_optimum Delta v -> watrous_optimum (c *: Delta) (c * v).
Proof.
move=> c0 [[rho [W f <-]] best]; have rc := ger0_real c0; split.
  by exists rho, W => //; rewrite watrous_objectiveZ.
move=> rho' W' f'; rewrite watrous_objectiveZ //.
by apply: ler_wpM2l => //; exact: best f'.
Qed.

(* ----- the partial trace ------------------------------------------------ *)

Lemma kron_indexK d (i : 'I_(d * d)) :
  kron_index (kron_fst i) (kron_snd i) = i.
Proof. by apply: val_inj; rewrite /= -divn_eq. Qed.

Lemma kron_fst_index d (a k : 'I_d) : kron_fst (kron_index a k) = a.
Proof.
have d0 : (0 < d)%N by exact: leq_ltn_trans (ltn_ord a).
by apply: val_inj; rewrite /= divnMDl // divn_small // addn0.
Qed.

Lemma kron_snd_index d (a k : 'I_d) : kron_snd (kron_index a k) = k.
Proof. by apply: val_inj; rewrite /= modnMDl modn_small. Qed.

Lemma sum_kron_index d (F : 'I_(d * d) -> C) :
  \sum_i F i = \sum_a \sum_k F (kron_index a k).
Proof.
rewrite pair_bigA /=.
rewrite (reindex (fun p : 'I_d * 'I_d => kron_index p.1 p.2)) //=.
exists (fun i => (kron_fst i, kron_snd i)) => [[a k] _|i _] /=.
  by rewrite kron_fst_index kron_snd_index.
exact: kron_indexK.
Qed.

Lemma kron1E d (rho : 'M[C]_d) (a k b l : 'I_d) :
  kron (1%:M : 'M[C]_d) rho (kron_index a k) (kron_index b l)
  = (a == b)%:R * rho k l.
Proof. by rewrite !mxE !kron_fst_index !kron_snd_index. Qed.

(* Tr(J (I (x) rho)) = Tr(Tr_1(J) rho) *)
Lemma tr_kron1 d (J : 'M[C]_(d * d)) (rho : 'M[C]_d) :
  \tr (J *m kron 1%:M rho) = \tr (ptrace1 J *m rho).
Proof.
rewrite /mxtrace sum_kron_index exchange_big /=.
apply: eq_bigr => k _.
rewrite mxE.
have -> : \sum_(a < d) (J *m kron 1%:M rho) (kron_index a k) (kron_index a k)
          = \sum_(a < d) \sum_(l < d)
              J (kron_index a k) (kron_index a l) * rho l k.
  apply: eq_bigr => a _; rewrite mxE sum_kron_index (bigD1 a) //=.
  rewrite [X in _ + X]big1.
    move=> b ne; apply: big1 => l _.
    by rewrite kron1E (negbTE ne) mul0r mulr0.
  by rewrite addr0; apply: eq_bigr => l _; rewrite kron1E eqxx mul1r.
rewrite exchange_big /=; apply: eq_bigr => l _.
by rewrite mxE mulr_suml.
Qed.

Lemma hermitian_kron1 d (rho : 'M[C]_d) :
  hermitian rho -> hermitian (kron (1%:M : 'M[C]_d) rho).
Proof.
move=> h; apply/matrixP => i j; rewrite !mxE rmorphM /=.
rewrite [in LHS]h !mxE eq_sym.
by rewrite conjC_nat.
Qed.

Lemma hermitized_hermitian n (J1 J2 : 'M[C]_n) :
  hermitian J1 -> hermitian J2 -> hermitized J1 J2 = J1 - J2.
Proof.
move=> h1 h2; rewrite /hermitized linearB /= map_mxB -h1 -h2.
by rewrite -mulr2n -scaler_nat scalerA mulVf ?scale1r // pnatr_eq0.
Qed.

Lemma watrous_objective_le1 d (J1 J2 : 'M[C]_(d * d)) (rho : 'M[C]_d)
  (W : 'M[C]_(d * d)) :
  hermitian J1 -> psd J1 -> ptrace1 J1 = 1%:M ->
  hermitian J2 -> psd J2 ->
  watrous_feasible rho W -> watrous_objective (hermitized J1 J2) W <= 1.
Proof.
move=> h1 p1 t1 h2 p2 [[hr pr tr1] [hW pW pK]].
rewrite /watrous_objective hermitized_hermitian //.
have <- : J1 - J2 = (J1 - J2)^t*.
  by apply: hermitianD => //; exact: hermitianN.
rewrite mulmxBl raddfB /=.
have r1 := tr_herm_mul_real h1 hW.
have r2 := tr_herm_mul_real h2 hW.
rewrite Re_real; first by rewrite rpredB.
have ge2 : 0 <= \tr (J2 *m W) by exact: tr_psd_mul_ge0.
have hK : hermitian (kron 1%:M rho - W).
  by apply: hermitianD; [exact: hermitian_kron1 | exact: hermitianN].
have := tr_psd_mul_ge0 h1 p1 hK pK.
rewrite mulmxBr raddfB /= tr_kron1 t1 mul1mx tr1 subr_ge0 => le1.
by apply: le_trans le1; rewrite lerBlDr lerDl.
Qed.

Lemma diamond_optimum_le1 d (choi_1 choi_2 : ndarray) v :
  shape choi_1 = [:: (d * d)%N; (d * d)%N] ->
  hermitian (mx_of choi_1 (d * d) (d * d)) ->
  psd (mx_of choi_1 (d * d) (d * d)) ->
  ptrace1 (mx_of choi_1 (d * d) (d * d)) = 1%:M ->
  hermitian (mx_of choi_2 (d * d) (d * d)) ->
  psd (mx_of choi_2 (d * d) (d * d)) ->
  optimal_value (diamond_problem d (d * d) (delta_of choi_1 choi_2)) v ->
  v <= 1.
Proof.
move=> s1 h1 p1 t1 h2 p2.
move/(diamond_optimal_iff _ (delta_shape choi_2 s1)) => [[rho [W f <-]] _].
by rewrite mx_of_delta; exact: (watrous_objective_le1 h1 p1 t1 h2 p2 f).
Qed.

End DiamondValue.

Section DiamondExtras.

Variable C : numClosedFieldType.
Variable cvxpy_solve : problem C -> result C.

Local Notation ndarray := (ndarray C).
Local Notation smx := (smx C).
Local Notation diamond_norm := (diamond_norm cvxpy_solve).

(** X9. On two arrays of one shape that is not 2-D, diamond_norm fails
    at the unpacking of the shape with a ValueError, before anything is
    created in the modelling layer. *)
Theorem diamond_norm_unpack_error (choi_1 choi_2 : ndarray) (l : log C) :
  shape choi_1 = shape choi_2 -> size (shape choi_1) != 2%N ->
  diamond_norm choi_1 choi_2 l
  = (Raise (unpack_error (size (shape choi_1))), l)
  /\ is_ValueError (unpack_error (size (shape choi_1))).
Proof.
move=> es; rewrite /diamond_norm -es eqxx /=.
by case: (shape choi_1) => [|a [|b [|c s]]].
Qed.

(** X10. For Choi matrices of side d^2, d > 0, the optimal value of the
    programme of diamond_norm is never negative (rho = I/d, W = 0 is
    feasible with objective 0), so with a solver that is right up to
    tol, diamond_norm returns a number within 2 tol of a non-negative
    one. *)
Theorem diamond_norm_nonnegative (choi_1 choi_2 : ndarray) (d : nat)
  (l : log C) (tol x : C) :
  (0 < d)%N ->
  shape choi_1 = [:: (d * d)%N; (d * d)%N] ->
  shape choi_2 = [:: (d * d)%N; (d * d)%N] ->
  let P := diamond_problem d (d * d) (delta_of choi_1 choi_2) in
  cvxpy_solve P = Return x ->
  (exists2 v, optimal_value P v & `|x - v| <= tol) ->
  (forall v, optimal_value P v -> 0 <= v)
  /\ exists2 a, 0 <= a
       & (diamond_norm choi_1 choi_2 l).1 = Return (x * 2%:R)
         /\ `|x * 2%:R - a| <= 2%:R * tol.
Proof.
move=> d0 s1 s2 P solved [v opt err].
have sd := delta_shape choi_2 s1.
have ge0 w : optimal_value P w -> 0 <= w by exact: diamond_optimum_ge0.
split=> //; exists (v * 2%:R); first by rewrite mulr_ge0 ?ler0n ?ge0.
split.
  by rewrite (diamond_norm_run _ _ s1 s2) int_sqrt_square /= -/P solved.
by rewrite -mulrBl normrM normr_nat mulrC ler_pM2l // ltr0n.
Qed.

(** X11. Scaling both Choi matrices (of side d^2, d > 0) by a real
    c >= 0 scales the optimal value of the programme of diamond_norm
    by c. *)
Theorem diamond_norm_homogeneous (choi_1 choi_2 : ndarray) (d : nat)
  (c v : C) (l : log C) :
  (0 < d)%N -> 0 <= c ->
  shape choi_1 = [:: (d * d)%N; (d * d)%N] ->
  shape choi_2 = [:: (d * d)%N; (d * d)%N] ->
  let P := diamond_problem d (d * d) (delta_of choi_1 choi_2) in
  let P' := diamond_problem d (d * d)
              (delta_of (nd_scale c choi_1) (nd_scale c choi_2)) in
  optimal_value P v ->
  diamond_norm (nd_scale c choi_1) (nd_scale c choi_2) l
  = (doubled (cvxpy_solve P'),
     l ++ diamond_events d (d * d)
            (delta_of (nd_scale c choi_1) (nd_scale c choi_2)))
  /\ optimal_value P' (c * v).
Proof.
move=> _ c0 s1 s2 P P' opt; split.
  by rewrite (@diamond_norm_run _ _ _ _ (d * d)%N) // int_sqrt_square.
have sd := delta_shape choi_2 s1.
have sd' : shape (delta_of (nd_scale c choi_1) (nd_scale c choi_2))
           = [:: (d * d)%N; (d * d)%N].
  by rewrite /delta_of /= s1.
apply/(diamond_optimal_iff _ sd').
rewrite mx_of_delta !mx_of_scale hermitizedZ ?ger0_real //.
apply: watrous_optimumZ => //.
by rewrite -mx_of_delta; apply/(diamond_optimal_iff _ sd).
Qed.

(** X12. Adding one array K to both Choi matrices (of side d^2, d > 0)
    leaves the Hermitized difference, and with it the optimal values of
    the programme of diamond_norm, unchanged. *)
Theorem diamond_norm_translation
  (choi_1 choi_2 K shifted_1 shifted_2 : ndarray) (d : nat) :
  (0 < d)%N ->
  shape choi_1 = [:: (d * d)%N; (d * d)%N] ->
  shape choi_2 = [:: (d * d)%N; (d * d)%N] ->
  nd_add choi_1 K = Return shifted_1 ->
  nd_add choi_2 K = Return shifted_2 ->
  let P := diamond_problem d (d * d) (delta_of choi_1 choi_2) in
  let P' := diamond_problem d (d * d) (delta_of shifted_1 shifted_2) in
  mx_of (delta_of shifted_1 shifted_2) (d * d) (d * d)
  = mx_of (delta_of choi_1 choi_2) (d * d) (d * d)
  /\ forall v, optimal_value P' v <-> optimal_value P v.
Proof.
move=> _ s1 s2; rewrite /nd_add /nd_zip.
case: ifP => // _ [<-]; case: ifP => // _ [<-] /=.
set D' := delta_of _ _.
have sd' : shape D' = [:: (d * d)%N; (d * d)%N] by rewrite /D' /delta_of /= s1.
have sd := delta_shape choi_2 s1.
have e : mx_of D' (d * d) (d * d)
         = mx_of (delta_of choi_1 choi_2) (d * d) (d * d).
  have sub (a b k : C) : a + k - (b + k) = a - b.
    by rewrite opprD addrACA subrr addr0.
  by apply/matrixP => i j; rewrite !mxE /= !sub.
split=> // v; split.
  by move/(diamond_optimal_iff _ sd'); rewrite e => /(diamond_optimal_iff _ sd).
by move/(diamond_optimal_iff _ sd); rewrite -e => /(diamond_optimal_iff _ sd').
Qed.

(** X13. For Choi matrices of side d^2, d > 0, that are Hermitian and
    positive semidefinite, the first with partial trace over the first
    factor equal to the identity, the optimal value of the programme of
    diamond_norm lies between 0 and 1, so with a solver that is right
    up to tol, diamond_norm returns a number within 2 tol of the
    interval from 0 to 2. *)
Theorem diamond_norm_channel_bound (choi_1 choi_2 : ndarray) (d : nat)
  (l : log C) (tol x : C) :
  (0 < d)%N ->
  shape choi_1 = [:: (d * d)%N; (d * d)%N] ->
  shape choi_2 = [:: (d * d)%N; (d * d)%N] ->
  let J1 := mx_of choi_1 (d * d) (d * d) in
  let J2 := mx_of choi_2 (d * d) (d * d) in
  [/\ hermitian J1, psd J1 & ptrace1 J1 = 1%:M] ->
  hermitian J2 /\ psd J2 ->
  let P := diamond_problem d (d * d) (delta_of choi_1 choi_2) in
  cvxpy_solve P = Return x ->
  (exists2 v, optimal_value P v & `|x - v| <= tol) ->
  (forall v, optimal_value P v -> 0 <= v <= 1)
  /\ exists2 a, 0 <= a <= 2%:R
       & (diamond_norm choi_1 choi_2 l).1 = Return (x * 2%:R)
         /\ `|x * 2%:R - a| <= 2%:R * tol.
Proof.
move=> d0 s1 s2 J1 J2 [h1 p1 t1] [h2 p2] P solved [v opt err].
have sd := delta_shape choi_2 s1.
have bounds w : optimal_value P w -> 0 <= w <= 1.
  move=> ow; rewrite (diamond_optimum_ge0 d0 sd ow) /=.
  exact: (diamond_optimum_le1 s1 h1 p1 t1 h2 p2 ow).
split=> //; exists (v * 2%:R).
  have /andP[v0 v1] := bounds v opt.
  by rewrite mulr_ge0 ?ler0n //= -[X in _ <= X]mul1r ler_wpM2r ?ler0n.
split.
  by rewrite (diamond_norm_run _ _ s1 s2) int_sqrt_square /= -/P solved.
by rewrite -mulrBl normrM normr_nat mulrC ler_pM2l // ltr0n.
Qed.

End DiamondExtras.

(* --------------------------------------------------------------------- *)
(* realignment: the partition                                             *)
(* --------------------------------------------------------------------- *)

Section RealignmentForms.

Variable C : numClosedFieldType.
Variable swap : ndarray C -> seq nat -> dims -> bool -> result (ndarray C).
Variable partial_transpose : ndarray C -> nat -> dims -> result (ndarray C).

Local Notation realignment := (realignment swap partial_transpose).
Local Notation realignment_with := (realignment_with swap partial_transpose).
Local Notation realignment_calls :=
  (realignment_calls swap partial_transpose).


Lemma realignment_with_reshaped (input_mat : ndarray C) (dim dim' : dims) :
  reshaped dim = reshaped dim' ->
  realignment_with input_mat dim = realignment_with input_mat dim'.
Proof. by rewrite /realignment_with -!/(reshaped _) => ->. Qed.

Lemma realignment_with_calls (input_mat : ndarray C) (dim : dims)
  (a b : rat) (r1 r2 : seq rat) :
  reshaped dim = [:: a :: b :: r1; a :: b :: r2] ->
  realignment_with input_mat dim
  = realignment_calls [:: a :: b :: r1; a :: b :: r2] a b input_mat.
Proof. by rewrite /realignment_with -!/(reshaped _) => ->. Qed.

Lemma reshaped_row (ds : seq rat) : (0 < size ds)%N ->
  reshaped [:: ds] = [:: ds; ds].
Proof.
move=> s0; rewrite /reshaped /dims_shape /dims_T /=.
have -> : minn 1 (size ds) = 1%N by apply/minn_idPl.
rewrite eqxx flatten_singletons.
by have -> : [seq nth 0 ds j | j <- iota 0 (size ds)] = ds by exact: mkseq_nth.
Qed.

Lemma reshaped_column (ds : seq rat) : (0 < size ds)%N ->
  reshaped [seq [:: x] | x <- ds] = [:: ds; ds].
Proof.
case: ds => [|a ds] // _; rewrite /reshaped /dims_shape /dims_T /=.
by rewrite cats0 -map_comp map_id_in.
Qed.

Lemma reshaped_square (a b c e : rat) (r1 r2 : seq rat) :
  reshaped [:: a :: b :: r1; c :: e :: r2] = [:: a :: b :: r1; c :: e :: r2].
Proof. by rewrite /reshaped /dims_shape /= /minn; case: (_ < _)%N. Qed.

Lemma invalid_dim_empty (dim : int) : invalid_dim 0 dim.
Proof.
rewrite /invalid_dim; move: eps => e.
rewrite !mulr0n mul0r mulr0 mul0r.
have -> : np_round 0 = 0 by exact: (np_round_intr 0).
by rewrite subrr normr0.
Qed.


(** X15. A partition given as one row [[a, b, ...]] and as one column
    [[a], [b], ...] gives the same result; with at least two entries
    it is the result for the array [[a, b, ...], [a, b, ...]]: two
    swaps and a partial transpose with the partitions built from a and
    b. *)
Theorem realignment_flat_partition (input_mat : ndarray C) :
  (forall ds : seq rat,
     realignment input_mat (DimList [:: ds])
     = realignment input_mat (DimList [seq [:: x] | x <- ds]))
  /\ (forall (a b : rat) (rest : seq rat),
        let ds := a :: b :: rest in
        realignment input_mat (DimList [:: ds])
        = realignment_calls [:: ds; ds] a b input_mat
        /\ realignment input_mat (DimArray [:: ds; ds])
           = realignment_calls [:: ds; ds] a b input_mat).
Proof.
split=> [ds|a b rest ds].
  rewrite /realignment; case: ds => [|x ds] //.
  apply: realignment_with_reshaped.
  by rewrite reshaped_row // (@reshaped_column (x :: ds)).
split; apply: realignment_with_calls; first exact: reshaped_row.
exact: reshaped_square.
Qed.

(** X16. realignment raises IndexError, whatever swap and
    partial_transpose do, when the input array has fewer than two axes
    and dim is absent, when the input array has no axis and dim is an
    int, and when dim is a row of fewer than two entries. *)
Theorem realignment_too_few_dims (input_mat : ndarray C) :
  [/\ (size (shape input_mat) < 2)%N ->
        realignment input_mat DimNone = Raise IndexError,
      shape input_mat = [::] ->
        forall dim : int, realignment input_mat (DimInt dim) = Raise IndexError
    & forall ds : seq rat, (size ds < 2)%N ->
        realignment input_mat (DimList [:: ds]) = Raise IndexError].
Proof.
split=> [|sh dim|ds].
- by rewrite /realignment; case: (shape input_mat) => [|r [|c s]].
- by rewrite /realignment /dim_of_int sh.
- by case: ds => [|x [|y ds]].
Qed.

(** X17. With an int dim, on an array with at least one axis: dim = 0
    raises ZeroDivisionError, and an array with no rows is rejected
    with ValueError("InvalidDim:") for every other dim. *)
Theorem realignment_int_edges (input_mat : ndarray C) (rows : nat)
  (rest : seq nat) :
  shape input_mat = rows :: rest ->
  realignment input_mat (DimInt 0) = Raise ZeroDivisionError
  /\ (rows = 0%N -> forall dim : int, dim != 0 ->
        realignment input_mat (DimInt dim) = Raise InvalidDim).
Proof.
move=> sh; split; first by rewrite /realignment /dim_of_int sh.
move=> r0 dim nz.
by rewrite (realignment_int swap partial_transpose sh nz) r0 invalid_dim_empty.
Qed.

End RealignmentForms.

(* --------------------------------------------------------------------- *)
(* The further properties at concrete inputs                              *)
(* --------------------------------------------------------------------- *)

Section BellPair.

Lemma half_probs : valid_probs 2 [:: 2%:R^-1; 2%:R^-1 : algC].
Proof.
apply/and3P; split=> //=.
  by rewrite invr_ge0 ler0n.
by rewrite big_cons big_seq1 -mulr2n -mulr_natl divff // pnatr_eq0.
Qed.

Lemma bell_orthogonal : inner (bell algC 0) (bell algC 1) 4 = 0.
Proof.
rewrite /inner mxE !big_ord_recl big_ord0 !mxE /=.
rewrite !rmorph0 !mul0r !addr0 add0r mul1r mulN1r mulrN.
by rewrite sub0r subrr.
Qed.

Lemma bell_accurate :
  accurate 0 (dual_problem [:: bell algC 0; bell algC 1]
                [:: 2%:R^-1; 2%:R^-1] 4) zero_solution.
Proof.
exists 0; last by rewrite /= subrr normr0.
exact: (@orthogonal_dual_optimum algC [:: bell algC 0; bell algC 1] _ 4
          half_probs 0 1 (ltn0Sn 1) (ltnSn 1) bell_orthogonal).
Qed.

End BellPair.

Section OnesChannel.

Local Notation J := (mx_of (ones algC [:: 1; 1]%N) (1 * 1) (1 * 1)).

Lemma ones_scalar : J = 1%:M.
Proof. by apply/matrixP => i j; rewrite !mxE !ord1. Qed.

Lemma ones_hermitian : hermitian J.
Proof. by rewrite ones_scalar; exact: hermitian1. Qed.

Lemma ones_psd : psd J.
Proof. by rewrite ones_scalar; apply: psd_scalar; rewrite ler01. Qed.

Lemma ones_ptrace : ptrace1 J = 1%:M.
Proof. by apply/matrixP => i j; rewrite !mxE big_ord1 !mxE !ord1. Qed.

End OnesChannel.

Lemma state_exclusion_short_probs_witness :
  exists evs : seq (event algC),
    state_exclusion unit_solver scalar_state (Some [::]) "cvxopt" "dual" [::]
    = (Raise IndexError, [::] ++ evs)
    /\ ~~ has (@is_solve algC) evs.
Proof.
exact: (@state_exclusion_short_probs algC unit_solver scalar_state [::]
          "cvxopt" "dual" [::] 1 _ _ erefl erefl (ltn0Sn 0) (ltn0Sn 0)).
Defined.

Lemma state_exclusion_default_probs_witness :
  state_exclusion unit_solver scalar_state None "cvxopt" "dual" [::]
  = state_exclusion unit_solver scalar_state (Some (nseq 1 (1 / 1%:R)))
      "cvxopt" "dual" [::].
Proof.
have [_ same _] :=
  @state_exclusion_default_probs algC unit_solver scalar_state "cvxopt"
    "dual" [::] 1 _ _ erefl erefl.
exact: (same (ltn0Sn 0) (leqnn 1)).
Defined.

Lemma state_exclusion_primal_programme_witness :
  state_exclusion unit_solver scalar_state (Some [:: 1]) "cvxopt" "primal"
    [::]
  = (primal_result scalar_state 1
       (unit_solver "cvxopt" (primal_problem scalar_state [:: 1] 1)),
     [::] ++ primal_events scalar_state [:: 1] 1).
Proof.
have [run _ _ _ _] :=
  @state_exclusion_primal_programme algC unit_solver scalar_state [:: 1]
    "cvxopt" [::] 1 _ _ erefl erefl (ltn0Sn 0) (leqnn 1).
exact: run.
Defined.

Lemma state_exclusion_value_bounds_witness :
  exists ops a,
    [/\ (state_exclusion unit_solver scalar_state (Some [:: 1]) "cvxopt"
           "dual" [::]).1
        = Return (value unit_solution, ops),
        0 <= a <= 1 * inner (ones algC [:: 1; 1]%N) (ones algC [:: 1; 1]%N) 1
      & `|value unit_solution - a| <= 0].
Proof.
have acc : accurate 0 (mode_problem "dual" scalar_state [:: 1] 1)
             unit_solution.
  by exists 1; [exact: unit_dual_optimal | rewrite /= subrr normr0].
have vp : valid_probs (size scalar_state) [:: (1 : algC)].
  by rewrite /valid_probs /= big_seq1 !eqxx ler01.
have [_ within] :=
  @state_exclusion_value_bounds algC unit_solver scalar_state [:: 1]
    "cvxopt" "dual" [::] 1 _ _ 0 unit_solution 0 erefl erefl (ltn0Sn 0)
    vp (ltn0Sn 0) erefl acc.
exact: within.
Defined.

Lemma state_exclusion_orthogonal_pair_witness :
  exists2 ops,
    (state_exclusion null_solver [:: bell algC 0; bell algC 1]
       (Some [:: 2%:R^-1; 2%:R^-1]) "cvxopt" "dual" [::]).1
    = Return (value zero_solution, ops)
    & `|value zero_solution| <= 0.
Proof.
have [_ _ within] :=
  @state_exclusion_orthogonal_pair algC null_solver
    [:: bell algC 0; bell algC 1] [:: 2%:R^-1; 2%:R^-1] "cvxopt" "dual"
    [::] 4 _ _ 0 1 zero_solution 0 erefl erefl (ltn0Sn 3) half_probs
    (ltn0Sn 1) (ltnSn 1) bell_orthogonal erefl bell_accurate.
exact: within.
Defined.

Lemma state_exclusion_identical_states_witness :
  exists2 ops,
    (state_exclusion unit_solver (nseq 1 (ones algC [:: 1; 1]%N))
       (Some [:: 1]) "cvxopt" "dual" [::]).1
    = Return (value unit_solution, ops)
    & `|value unit_solution
        - 1 * inner (ones algC [:: 1; 1]%N) (ones algC [:: 1; 1]%N) 1| <= 0.
Proof.
have one : inner (ones algC [:: 1; 1]%N) (ones algC [:: 1; 1]%N) 1 = 1.
  by rewrite /inner mxE big_ord1 !mxE /= rmorph1 mulr1.
have vp : valid_probs 1 [:: (1 : algC)].
  by rewrite /valid_probs /= big_seq1 !eqxx ler01.
have least i : (i < 1)%N -> nth 0 [:: (1 : algC)] 0 <= nth 0 [:: 1] i.
  by case: i.
have acc : accurate 0 (mode_problem "dual" (nseq 1 (ones algC [:: 1; 1]%N))
                         [:: 1] 1) unit_solution.
  by exists 1; [exact: unit_dual_optimal | rewrite /= subrr normr0].
have [_ _ within] :=
  @state_exclusion_identical_states algC unit_solver (ones algC [:: 1; 1]%N)
    0 1 [:: 1] "cvxopt" "dual" [::] 0 unit_solution 0 erefl (ltn0Sn 0) vp
    (ltn0Sn 0) least erefl acc.
exact: within.
Defined.

Lemma diamond_norm_unpack_error_witness :
  diamond_norm zero_solver (ones algC [:: 3]%N) (ones algC [:: 3]%N) [::]
  = (Raise (unpack_error 1), [::]).
Proof.
have [raised _] :=
  @diamond_norm_unpack_error algC zero_solver (ones algC [:: 3]%N)
    (ones algC [:: 3]%N) [::] erefl erefl.
exact: raised.
Defined.

Lemma diamond_norm_nonnegative_witness :
  exists2 a : algC, 0 <= a
    & (diamond_norm zero_solver (ones algC [:: 1; 1]%N)
         (ones algC [:: 1; 1]%N) [::]).1
      = Return (0 * 2%:R)
      /\ `|0 * 2%:R - a| <= 2%:R * 0.
Proof.
have acc :
  exists2 v,
    optimal_value
      (diamond_problem 1 (1 * 1)
         (delta_of (ones algC [:: 1; 1]%N) (ones algC [:: 1; 1]%N))) v
    & `|0 - v| <= (0 : algC).
  exists 0; last by rewrite subrr normr0.
  exact: (@diamond_self_optimal algC 1 (ones algC [:: 1; 1]%N) (ltn0Sn 0)
            erefl).
have [_ within] :=
  @diamond_norm_nonnegative algC zero_solver (ones algC [:: 1; 1]%N)
    (ones algC [:: 1; 1]%N) 1 [::] 0 0 (ltn0Sn 0) erefl erefl erefl acc.
exact: within.
Defined.

Lemma diamond_norm_homogeneous_witness :
  optimal_value
    (diamond_problem 1 (1 * 1)
       (delta_of (nd_scale 2%:R (ones algC [:: 1; 1]%N))
                 (nd_scale 2%:R (ones algC [:: 1; 1]%N))))
    (2%:R * 0).
Proof.
have two : 0 <= (2%:R : algC) by rewrite ler0n.
have opt := @diamond_self_optimal algC 1 (ones algC [:: 1; 1]%N) (ltn0Sn 0)
              erefl.
have [_ scaled] :=
  @diamond_norm_homogeneous algC zero_solver (ones algC [:: 1; 1]%N)
    (ones algC [:: 1; 1]%N) 1 2%:R 0 [::] (ltn0Sn 0) two erefl erefl opt.
exact: scaled.
Defined.

Lemma diamond_norm_translation_witness :
  mx_of (delta_of (Nd [:: 1; 1]%N (fun=> 1 + 1))
                  (Nd [:: 1; 1]%N (fun=> 1 + 1))) (1 * 1) (1 * 1)
  = mx_of (delta_of (ones algC [:: 1; 1]%N) (ones algC [:: 1; 1]%N))
      (1 * 1) (1 * 1).
Proof.
have [same _] :=
  @diamond_norm_translation algC (ones algC [:: 1; 1]%N)
    (ones algC [:: 1; 1]%N) (ones algC [:: 1; 1]%N) _ _ 1 (ltn0Sn 0)
    erefl erefl erefl erefl.
exact: same.
Defined.

Lemma diamond_norm_channel_bound_witness :
  exists2 a : algC, 0 <= a <= 2%:R
    & (diamond_norm zero_solver (ones algC [:: 1; 1]%N)
         (ones algC [:: 1; 1]%N) [::]).1
      = Return (0 * 2%:R)
      /\ `|0 * 2%:R - a| <= 2%:R * 0.
Proof.
have acc :
  exists2 v,
    optimal_value
      (diamond_problem 1 (1 * 1)
         (delta_of (ones algC [:: 1; 1]%N) (ones algC [:: 1; 1]%N))) v
    & `|0 - v| <= (0 : algC).
  exists 0; last by rewrite subrr normr0.
  exact: (@diamond_self_optimal algC 1 (ones algC [:: 1; 1]%N) (ltn0Sn 0)
            erefl).
have [_ within] :=
  @diamond_norm_channel_bound algC zero_solver (ones algC [:: 1; 1]%N)
    (ones algC [:: 1; 1]%N) 1 [::] 0 0 (ltn0Sn 0) erefl erefl
    (And3 ones_hermitian ones_psd ones_ptrace)
    (conj ones_hermitian ones_psd) erefl acc.
exact: within.
Defined.


Lemma realignment_too_few_dims_witness :
  realignment id_swap id_partial_transpose (ones algC [:: 3]%N) DimNone
  = Raise IndexError.
Proof.
have [none _ _] :=
  @realignment_too_few_dims algC id_swap id_partial_transpose
    (ones algC [:: 3]%N).
exact: (none (ltnSn 1)).
Defined.

Lemma realignment_int_edges_witness :
  realignment id_swap id_partial_transpose (ones algC [:: 0; 4]%N) (DimInt 0)
  = Raise ZeroDivisionError
  /\ realignment id_swap id_partial_transpose (ones algC [:: 0; 4]%N)
       (DimInt 2)
     = Raise InvalidDim.
Proof.
have nz2 : (2 : int) != 0 by [].
have [zero empty] :=
  @realignment_int_edges algC id_swap id_partial_transpose
    (ones algC [:: 0; 4]%N) 0 [:: 4%N] erefl.
split; first exact: zero.
exact: (empty erefl 2 nz2).
Defined.
